(** * sync-redis: the synchronizer between a production redis and a
      read-only redis, as a shallow embedding of [sync-redis.py].

    The file follows the layout of the Python module: first the values the
    script handles and the two redis servers it talks to, then the class
    [Synchronizer] method by method, then the properties of a run. *)

From Stdlib Require Import ZArith String DecimalString DecimalZ.
From stdpp Require Import base option list gmap strings fin_maps sorting.

Local Open Scope string_scope.
Local Open Scope Z_scope.
Local Open Scope list_scope.

(** ** Python values *)

(** The dynamically typed values the script passes around: [None], an
    [int], a [str] (the script's own literals, such as ["-inf"] and ["db"])
    and [bytes] (the names and values the redis connections reply with:
    they are created without an encoding, and the script calls [decode] on
    what it gets from them). *)
Inductive pyval : Type :=
  | PNone
  | PInt (z : Z)
  | PStr (s : string)
  | PBytes (b : string).

#[global] Instance pyval_eq_dec : EqDecision pyval.
Proof. solve_decision. Defined.

(** [bool(x)]. *)
Definition py_bool (x : pyval) : bool :=
  match x with
  | PNone => false
  | PInt z => negb (z =? 0)
  | PStr s => negb (String.eqb s "")
  | PBytes b => negb (String.eqb b "")
  end.

(** [x != y]; a [str] never equals [bytes]. *)
Definition py_ne (x y : pyval) : bool := negb (bool_decide (x = y)).

(** Exceptions a run can end with. *)
Inductive exn : Type :=
  | ReplyError (msg : string)
  | ConnectionError (msg : string)
  | TypeError
  | ValueError
  | IndexError.

#[global] Instance exn_eq_dec : EqDecision exn.
Proof. solve_decision. Defined.

(** The decimal text redis sends for an integer score, and
    [int(b.decode())] on [bytes] that hold a decimal text: an optional minus
    sign and digits.  Redis sends this text for the scores of
    [exact_scores] below; from 10^17 on it sends an exponent form, which
    [int] refuses.  The other texts [int] accepts (a plus sign, blanks,
    underscores) are in no reply of the server, and in a run [py_int] is
    only applied to the score texts of a reply. *)
Definition score_text (z : Z) : string := NilZero.string_of_int (Z.to_int z).

Definition py_int (x : pyval) : exn + Z :=
  match x with
  | PBytes b =>
      match NilZero.int_of_string b with
      | Some d => inr (Z.of_int d)
      | None => inl ValueError
      end
  | _ => inl TypeError
  end.

(** A [dict] as returned by [hgetall]: its items, looked up with [get]. *)
Definition pydict : Type := list (pyval * pyval).

Fixpoint dict_get (d : pydict) (k : pyval) : pyval :=
  match d with
  | [] => PNone
  | (k', v) :: d' => if bool_decide (k' = k) then v else dict_get d' k
  end.

(** ** The redis servers *)

(** The four keys of the class [Synchronizer]. *)
Inductive key : Type :=
  | change_id_key
  | full_data_key
  | schema_key
  | production_marker_key.

#[global] Instance key_eq_dec : EqDecision key.
Proof. solve_decision. Defined.

Definition key_name (k : key) : string :=
  match k with
  | change_id_key => "element_cache_change_id"
  | full_data_key => "element_cache_full_data"
  | schema_key => "element_cache_schema"
  | production_marker_key => "element_cache_production_marker"
  end.

Definition lowest_change_id_member : string := "_config:lowest_change_id".

(** A server holds what lives under the four keys: a sorted set (member to
    score; the scores are the change ids, integers, as every score the
    script writes went through [int]), two hashes, a plain string, and the
    bodies of the scripts it has cached.  An empty hash or sorted set is an
    absent key, as in redis; each key is bound to the kind of value the
    script keeps under it, and a command of another kind on it is refused
    by the server with WRONGTYPE. *)
Record redis : Type := Redis {
  change_id : gmap string Z;
  full_data : gmap string string;
  schema : gmap string string;
  production_marker : option string;
  script_cache : gset string
}.

(** *** Reading commands *)

Definition wrongtype : exn :=
  ReplyError "WRONGTYPE Operation against a key holding the wrong kind of value".

Definition redis_hash (r : redis) (k : key) : option (gmap string string) :=
  match k with
  | full_data_key => Some (full_data r)
  | schema_key => Some (schema r)
  | _ => None
  end.

Definition redis_zset (r : redis) (k : key) : option (gmap string Z) :=
  match k with
  | change_id_key => Some (change_id r)
  | _ => None
  end.

(** [get(key)]: the value, or [None]. *)
Definition redis_get (r : redis) (k : key) : exn + pyval :=
  match k with
  | production_marker_key =>
      inr (match production_marker r with Some v => PBytes v | None => PNone end)
  | _ => inl wrongtype
  end.

(** [hgetall(key)] as a dict with [bytes] keys and values. *)
Definition hash_items (h : gmap string string) : pydict :=
  (λ kv, (PBytes kv.1, PBytes kv.2)) <$> map_to_list h.

Definition redis_hgetall (r : redis) (k : key) : exn + pydict :=
  match redis_hash r k with
  | Some h => inr (hash_items h)
  | None => inl wrongtype
  end.

(** [zscore(key, member)]: the score as an [int], or [None].  The client
    gives an [int] when the text of the score is an integer literal, which
    it is for the scores of [exact_scores] below, and a [float]
    otherwise. *)
Definition redis_zscore (r : redis) (k : key) (member : string) : exn + pyval :=
  match redis_zset r k with
  | Some z => inr (match z !! member with Some s => PInt s | None => PNone end)
  | None => inl wrongtype
  end.

(** The entry with the highest score of a list of entries. *)
Fixpoint max_entry (l : list (string * Z)) : option (string * Z) :=
  match l with
  | [] => None
  | e :: l' =>
      match max_entry l' with
      | None => Some e
      | Some e' => if Z.ltb e'.2 e.2 then Some e else Some e'
      end
  end.

(** [zrevrangebyscore(key, withscores=True, count=1, offset=0)]: at most
    one (member, score) pair, the one with the highest score, the score an
    [int] as with [zscore]. *)
Definition redis_zrevrangebyscore (r : redis) (k : key)
  : exn + list (pyval * pyval) :=
  match redis_zset r k with
  | Some z =>
      inr (match max_entry (map_to_list z) with
           | Some e => [(PBytes e.1, PInt e.2)]
           | None => []
           end)
  | None => inl wrongtype
  end.

(** *** The two Lua scripts *)

Definition full_update_script : string := "
        local full_data = redis.call('hgetall', KEYS[1])
        local change_id = redis.call('zrangebyscore', KEYS[2], '-inf', '+inf', 'WITHSCORES')
        local schema = redis.call('hgetall', KEYS[3])
        local result = {}
        table.insert(result, full_data)
        table.insert(result, change_id)
        table.insert(result, schema)
        return result
        ".

Definition partial_update_script : string := "
        local change_id = redis.call('zrangebyscore', KEYS[2], ARGV[1], '+inf', 'WITHSCORES')

        local partial_full_data = {}
        local i
        for i = 1, #change_id, 2 do
          table.insert(partial_full_data, change_id[i])
          table.insert(partial_full_data, redis.call('hget', KEYS[1], change_id[i]))
        end

        local result = {}
        table.insert(result, partial_full_data)
        table.insert(result, change_id)
        return result
        ".

(** What a script returns to the Python side: a list of flat lists. *)
Definition reply : Type := list (list pyval).

Definition score_le (a b : string * Z) : Prop :=
  a.2 < b.2 ∨ (a.2 = b.2 ∧ String.leb a.1 b.1 = true).

#[global] Instance score_le_dec a b : Decision (score_le a b).
Proof. unfold score_le. apply _. Defined.

(** The lower bound of [zrangebyscore] in the two forms the script sends
    it: the text ["-inf"] or an integer. *)
Definition range_min (a : pyval) : option (option Z) :=
  match a with
  | PStr s => if String.eqb s "-inf" then Some None else None
  | PInt z => Some (Some z)
  | _ => None
  end.

Definition from_min (min : option Z) (e : string * Z) : Prop :=
  match min with
  | None => True
  | Some z => z ≤ e.2
  end.

#[global] Instance from_min_dec min e : Decision (from_min min e).
Proof. destruct min; simpl; apply _. Defined.

(** [zrangebyscore key min +inf]: the entries from [min] on, by ascending
    score, those of equal score by member, byte by byte.  Redis reads
    [min] as a double: the comparison below is the one it makes for a bound
    in the range of [exact_bound]. *)
Definition zrangebyscore (z : gmap string Z) (min : option Z) : list (string * Z) :=
  merge_sort score_le (filter (from_min min) (map_to_list z)).

(** Flat replies: [hgetall] gives field, value, ...; [WITHSCORES] gives
    member, score text, ...; the loop of the partial script gives member,
    value-or-nil, .... *)
Definition flat_hash (l : list (string * string)) : list pyval :=
  l ≫= λ fv, [PBytes fv.1; PBytes fv.2].

Definition flat_withscores (l : list (string * Z)) : list pyval :=
  l ≫= λ ms, [PBytes ms.1; PBytes (score_text ms.2)].

Definition lua_hget (h : gmap string string) (field : string) : pyval :=
  match h !! field with Some v => PBytes v | None => PNone end.

Definition flat_lookup (h : gmap string string) (l : list (string * Z)) : list pyval :=
  l ≫= λ ms, [PBytes ms.1; lua_hget h ms.1].

Definition script_error : exn := ReplyError "ERR Error running script".

Definition run_script (body : string) (r : redis) (keys : list key)
    (args : list pyval) : exn + reply :=
  if decide (body = full_update_script) then
    match keys with
    | k1 :: k2 :: k3 :: _ =>
        match redis_hash r k1, redis_zset r k2, redis_hash r k3 with
        | Some fd, Some cid, Some sch =>
            inr [flat_hash (map_to_list fd);
                 flat_withscores (zrangebyscore cid None);
                 flat_hash (map_to_list sch)]
        | _, _, _ => inl script_error
        end
    | _ => inl script_error
    end
  else if decide (body = partial_update_script) then
    match keys, args with
    | k1 :: k2 :: _, a1 :: _ =>
        match redis_hash r k1, redis_zset r k2, range_min a1 with
        | Some fd, Some cid, Some min =>
            let change_id := zrangebyscore cid min in
            inr [flat_lookup fd change_id; flat_withscores change_id]
        | _, _, _ => inl script_error
        end
    | _, _ => inl script_error
    end
  else inl script_error.

(** The hex digest of a script, kept symbolic: a digest stands for the
    text it was computed from (no collisions). *)
Inductive digest : Type := Sha1Hex (text : string).

#[global] Instance digest_eq_dec : EqDecision digest.
Proof. solve_decision. Defined.

Definition sha1_hexdigest (script : string) : digest := Sha1Hex script.

Definition noscript : exn :=
  ReplyError "NOSCRIPT No matching script. Please use EVAL.".

(** A server on which scripts can be run by digest or by body. *)
Class ScriptServer (Srv : Type) : Type := {
  evalsha : Srv → digest → list key → list pyval → (exn + reply) * Srv;
  eval : Srv → string → list key → list pyval → (exn + reply) * Srv
}.

Definition redis_evalsha (r : redis) (d : digest) (keys : list key)
    (args : list pyval) : (exn + reply) * redis :=
  match d with
  | Sha1Hex body =>
      if decide (body ∈ script_cache r) then (run_script body r keys args, r)
      else (inl noscript, r)
  end.

Definition cache_script (body : string) (r : redis) : redis :=
  Redis (change_id r) (full_data r) (schema r) (production_marker r)
        ({[body]} ∪ script_cache r).

Definition redis_eval (r : redis) (body : string) (keys : list key)
    (args : list pyval) : (exn + reply) * redis :=
  (run_script body r keys args, cache_script body r).

#[global] Instance redis_script_server : ScriptServer redis :=
  {| evalsha := redis_evalsha; eval := redis_eval |}.

(** *** Writing commands, queued in a MULTI/EXEC transaction *)

Inductive command : Type :=
  | Delete (k : key)
  | Hmset (k : key) (pairs : list pyval)
  | Hdel (k : key) (fields : list pyval)
  | Zadd (k : key) (pairs : list pyval).

(** How the client encodes an argument; [None] has no encoding. *)
Definition encode_arg (x : pyval) : option string :=
  match x with
  | PBytes b => Some b
  | PStr s => Some s
  | PInt z => Some (score_text z)
  | PNone => None
  end.

(** [hmset(key, field, value, *pairs)]: the (field, value) pairs of a flat
    argument list; there must be at least one, and an even number of
    arguments. *)
Fixpoint field_value_pairs (args : list pyval) : option (list (string * string)) :=
  match args with
  | [] => Some []
  | f :: v :: rest =>
      f' ← encode_arg f; v' ← encode_arg v;
      rest' ← field_value_pairs rest; Some ((f', v') :: rest')
  | [_] => None
  end.

(** [zadd(key, score, member, *pairs)]: every score must be a number. *)
Fixpoint score_member_pairs (args : list pyval) : option (list (Z * string)) :=
  match args with
  | [] => Some []
  | PInt s :: m :: rest =>
      m' ← encode_arg m;
      rest' ← score_member_pairs rest; Some ((s, m') :: rest')
  | _ => None
  end.

Definition nonempty {A} (l : list A) : bool :=
  match l with [] => false | _ => true end.

(** The client refuses a malformed call with a [TypeError] when it is
    queued. *)
Definition command_ok (c : command) : bool :=
  match c with
  | Delete _ => true
  | Hmset _ pairs => nonempty pairs && bool_decide (is_Some (field_value_pairs pairs))
  | Hdel _ fields => nonempty fields && bool_decide (is_Some (mapM encode_arg fields))
  | Zadd _ pairs => nonempty pairs && bool_decide (is_Some (score_member_pairs pairs))
  end.

Definition set_hash (r : redis) (k : key) (h : gmap string string) : option redis :=
  match k with
  | full_data_key =>
      Some (Redis (change_id r) h (schema r) (production_marker r) (script_cache r))
  | schema_key =>
      Some (Redis (change_id r) (full_data r) h (production_marker r) (script_cache r))
  | _ => None
  end.

Definition set_zset (r : redis) (k : key) (z : gmap string Z) : option redis :=
  match k with
  | change_id_key =>
      Some (Redis z (full_data r) (schema r) (production_marker r) (script_cache r))
  | _ => None
  end.

Definition redis_delete (r : redis) (k : key) : redis :=
  match k with
  | change_id_key =>
      Redis ∅ (full_data r) (schema r) (production_marker r) (script_cache r)
  | full_data_key =>
      Redis (change_id r) ∅ (schema r) (production_marker r) (script_cache r)
  | schema_key =>
      Redis (change_id r) (full_data r) ∅ (production_marker r) (script_cache r)
  | production_marker_key =>
      Redis (change_id r) (full_data r) (schema r) None (script_cache r)
  end.

(** Fields are set one after the other: a later pair wins. *)
Definition hmset_all (pairs : list (string * string)) (h : gmap string string)
  : gmap string string :=
  foldl (λ h fv, <[fv.1 := fv.2]> h) h pairs.

Definition hdel_all (fields : list string) (h : gmap string string)
  : gmap string string :=
  foldl (λ h f, delete f h) h fields.

Definition zadd_all (pairs : list (Z * string)) (z : gmap string Z)
  : gmap string Z :=
  foldl (λ z sm, <[sm.2 := sm.1]> z) z pairs.

(** One command on the server; [None] when the server refuses it. *)
Definition run_command (c : command) (r : redis) : option redis :=
  match c with
  | Delete k => Some (redis_delete r k)
  | Hmset k pairs =>
      h ← redis_hash r k; l ← field_value_pairs pairs;
      set_hash r k (hmset_all l h)
  | Hdel k fields =>
      h ← redis_hash r k; l ← mapM encode_arg fields;
      set_hash r k (hdel_all l h)
  | Zadd k pairs =>
      z ← redis_zset r k; l ← score_member_pairs pairs;
      set_zset r k (zadd_all l z)
  end.

(** EXEC runs the queued commands in order; a refused command leaves the
    server as it is and the others still run. *)
Fixpoint run_commands (cs : list command) (r : redis) : bool * redis :=
  match cs with
  | [] => (true, r)
  | c :: cs' =>
      match run_command c r with
      | Some r' => run_commands cs' r'
      | None => let '(_, r') := run_commands cs' r in (false, r')
      end
  end.

Definition multi_exec_error : exn := ReplyError "MultiExecError".

(** ** The run: both servers and the round trips made so far *)

Inductive event : Type :=
  | ProdGet (k : key)
  | ProdZscore (k : key) (member : string)
  | ProdHgetall (k : key)
  | ProdEvalsha (hash : digest) (keys : list key) (args : list pyval)
  | ProdEval (script : string) (keys : list key) (args : list pyval)
  | RoZrevrangebyscore (k : key)
  | RoZscore (k : key) (member : string)
  | RoHgetall (k : key)
  | RoMultiExec (transaction : list command).

Record world : Type := World {
  production_redis : redis;
  ro_redis : redis;
  trace : list event
}.

(** Coroutines of the script: they act on the world and return a value or
    raise. *)
Definition M (A : Type) : Type := world → (exn + A) * world.

Definition ret {A} (a : A) : M A := λ w, (inr a, w).
Definition raise {A} (e : exn) : M A := λ w, (inl e, w).
Definition bind {A B} (m : M A) (f : A → M B) : M B :=
  λ w, match m w with
       | (inr a, w') => f a w'
       | (inl e, w') => (inl e, w')
       end.

Declare Scope sync_scope.
Delimit Scope sync_scope with sync.
Notation "'let*' x ':=' m 'in' k" := (bind m (λ x, k))
  (at level 10, x name, m at level 100, k at level 200) : sync_scope.
Local Open Scope sync_scope.

Definition lift {A} (x : exn + A) : M A := λ w, (x, w).

Definition emit (e : event) : M unit :=
  λ w, (inr tt, World (production_redis w) (ro_redis w) (trace w ++ [e])).

Definition on_prod {A} (e : event) (f : redis → exn + A) : M A :=
  let* _ := emit e in λ w, (f (production_redis w), w).

Definition on_ro {A} (e : event) (f : redis → exn + A) : M A :=
  let* _ := emit e in λ w, (f (ro_redis w), w).

Definition prod_get (k : key) : M pyval :=
  on_prod (ProdGet k) (λ r, redis_get r k).
Definition prod_zscore (k : key) (member : string) : M pyval :=
  on_prod (ProdZscore k member) (λ r, redis_zscore r k member).
Definition prod_hgetall (k : key) : M pydict :=
  on_prod (ProdHgetall k) (λ r, redis_hgetall r k).
Definition ro_zrevrangebyscore (k : key) : M (list (pyval * pyval)) :=
  on_ro (RoZrevrangebyscore k) (λ r, redis_zrevrangebyscore r k).
Definition ro_zscore (k : key) (member : string) : M pyval :=
  on_ro (RoZscore k member) (λ r, redis_zscore r k member).
Definition ro_hgetall (k : key) : M pydict :=
  on_ro (RoHgetall k) (λ r, redis_hgetall r k).

(** [transaction.execute()] on the read-only redis.  A malformed command
    raised when it was queued, before anything was sent. *)
Definition ro_execute (transaction : list command) : M unit :=
  if forallb command_ok transaction then
    let* _ := emit (RoMultiExec transaction) in
    λ w,
      let '(ok, r') := run_commands transaction (ro_redis w) in
      (if ok then inr tt else inl multi_exec_error,
       World (production_redis w) r' (trace w))
  else raise TypeError.

(** ** class Synchronizer *)

(** The attributes the methods set on [self]. *)
Record Synchronizer : Type := Self {
  change_id_ro : pyval;
  lowest_change_id_ro : pyval;
  schema_ro : pydict;
  lowest_change_id_prod : pyval;
  schema_production : pydict
}.

Definition new_synchronizer : Synchronizer := Self PNone PNone [] PNone [].

(** [eval_production_redis]: by digest first, by body when the server
    answers NOSCRIPT; any other exception goes up. *)
Definition eval_on {Srv : Type} `{!ScriptServer Srv} (srv : Srv)
    (script : string) (keys : list key) (args : list pyval)
  : (exn + reply) * Srv * list event :=
  let hash := sha1_hexdigest script in
  match evalsha srv hash keys args with
  | (inl (ReplyError msg), srv') =>
      if String.prefix "NOSCRIPT" msg then
        (eval srv' script keys args,
         [ProdEvalsha hash keys args; ProdEval script keys args])
      else (inl (ReplyError msg), srv', [ProdEvalsha hash keys args])
  | (res, srv') => (res, srv', [ProdEvalsha hash keys args])
  end.

Definition eval_production_redis (script : string) (keys : list key)
    (args : list pyval) : M reply :=
  λ w, let '(res, srv', evs) := eval_on (production_redis w) script keys args in
       (res, World srv' (ro_redis w) (trace w ++ evs)).

(** [convert_change_id_list]: (member, score text) pairs become
    (score, member) pairs, the score an [int]. *)
Fixpoint convert_change_id_list (change_id : list pyval) : exn + list pyval :=
  match change_id with
  | [] => inr []
  | member :: score_txt :: rest =>
      match py_int score_txt with
      | inl e => inl e
      | inr score =>
          match convert_change_id_list rest with
          | inl e => inl e
          | inr rest' => inr (PInt score :: member :: rest')
          end
      end
  | [_] => inl IndexError
  end.

(** The dict [_schema_ro] that [fetch_ro_redis_data] builds for its log
    line, [{key.decode(): value.decode() for key, value in ...}]; logging
    itself touches neither server and is left out of the run.  Decoding
    raises on bytes that are no UTF-8: [fetch_ro_redis_data] below is the
    method on a schema hash that decodes, see [ascii_schema]. *)
Definition py_decode (x : pyval) : pyval :=
  match x with
  | PBytes b => PStr b
  | other => other
  end.

Definition decoded (d : pydict) : pydict :=
  (λ kv, (py_decode kv.1, py_decode kv.2)) <$> d.

Definition fetch_ro_redis_data (self : Synchronizer) : M Synchronizer :=
  let* top := ro_zrevrangebyscore change_id_key in
  let* cur_low :=
    match top with
    | [] => ret (PStr "-inf", PNone)
    | (_, score) :: _ =>
        let* low := ro_zscore change_id_key lowest_change_id_member in
        ret (score, low)
    end in
  let* sch := ro_hgetall schema_key in
  ret (Self cur_low.1 cur_low.2 sch
         (lowest_change_id_prod self) (schema_production self)).

Definition check_full_update (self : Synchronizer) : bool :=
  if bool_decide (lowest_change_id_ro self = PNone) then true
  else if bool_decide (lowest_change_id_prod self = PNone) then true
  else if py_ne (lowest_change_id_ro self) (lowest_change_id_prod self) then true
  else if py_ne (dict_get (schema_ro self) (PStr "db"))
                (dict_get (schema_production self) (PStr "db"))
          || py_ne (dict_get (schema_ro self) (PStr "config"))
                   (dict_get (schema_production self) (PStr "config"))
          || py_ne (dict_get (schema_ro self) (PStr "migration"))
                   (dict_get (schema_production self) (PStr "migration"))
       then true
  else false.

Definition do_full_update (self : Synchronizer) : M unit :=
  let* res := eval_production_redis full_update_script
                [full_data_key; change_id_key; schema_key] [] in
  match res with
  | [full_data; change_id; schema] =>
      let* change_id := lift (convert_change_id_list change_id) in
      ro_execute
        ([Delete full_data_key; Delete change_id_key; Delete schema_key]
         ++ (if nonempty full_data then [Hmset full_data_key full_data] else [])
         ++ (if nonempty change_id then [Zadd change_id_key change_id] else [])
         ++ (if nonempty schema then [Hmset schema_key schema] else []))
  | _ => raise ValueError
  end.

(** The lower bound handed to the partial script. *)
Definition fetch_floor (self : Synchronizer) : pyval :=
  match change_id_ro self with
  | PInt c => PInt (c + 1)
  | other => other
  end.

(** The loop that splits [partial_full_data] into changed (id, data, ...)
    and deleted (id, ...) elements. *)
Fixpoint split_partial_full_data (partial_full_data : list pyval)
  : exn + (list pyval * list pyval) :=
  match partial_full_data with
  | [] => inr ([], [])
  | element_id :: element :: rest =>
      match split_partial_full_data rest with
      | inl e => inl e
      | inr (changed, deleted) =>
          if py_bool element then inr (element_id :: element :: changed, deleted)
          else inr (changed, element_id :: deleted)
      end
  | [_] => inl IndexError
  end.

Definition do_partial_update (self : Synchronizer) : M unit :=
  let change_id_ro := fetch_floor self in
  let* res := eval_production_redis partial_update_script
                [full_data_key; change_id_key] [change_id_ro] in
  match res with
  | [partial_full_data; change_id] =>
      let* change_id := lift (convert_change_id_list change_id) in
      let* split := lift (split_partial_full_data partial_full_data) in
      let '(changed_elements, deleted_elements) := split in
      if nonempty partial_full_data || nonempty change_id then
        ro_execute
          ((if nonempty changed_elements
            then [Hmset full_data_key changed_elements] else [])
           ++ (if nonempty deleted_elements
               then [Hdel full_data_key deleted_elements] else [])
           ++ (if nonempty change_id then [Zadd change_id_key change_id] else []))
      else ret tt
  | _ => raise ValueError
  end.

Definition sync_redis (self : Synchronizer) : M Synchronizer :=
  let* marker := prod_get production_marker_key in
  if negb (py_bool marker) then ret self
  else
    let* self := fetch_ro_redis_data self in
    let* low := prod_zscore change_id_key lowest_change_id_member in
    let* sch := prod_hgetall schema_key in
    let self := Self (change_id_ro self) (lowest_change_id_ro self)
                  (schema_ro self) low sch in
    let* _ := (if check_full_update self then do_full_update self
               else do_partial_update self) in
    fetch_ro_redis_data self.

(** A run from scratch on two servers. *)
Definition start (prod ro : redis) : world := World prod ro [].

Definition run (prod ro : redis) : (exn + Synchronizer) * world :=
  sync_redis new_synchronizer (start prod ro).

(** ** Notions used in the statements *)

(** The (score, member) list that [convert_change_id_list] produces. *)
Definition flat_scores (l : list (string * Z)) : list pyval :=
  l ≫= λ ms, [PInt ms.2; PBytes ms.1].

(** The server after [eval_production_redis] ran a script on it, and the
    round trips that took: one when the script was cached, two when not. *)
Definition prod_after (script : string) (r : redis) : redis :=
  if decide (script ∈ script_cache r) then r else cache_script script r.

Definition script_events (script : string) (keys : list key)
    (args : list pyval) (r : redis) : list event :=
  if decide (script ∈ script_cache r)
  then [ProdEvalsha (sha1_hexdigest script) keys args]
  else [ProdEvalsha (sha1_hexdigest script) keys args;
        ProdEval script keys args].

(** The data of an element on the source, when it has some: a missing
    field and an empty value both count as no data. *)
Definition has_data (fd : gmap string string) (m : string) : option string :=
  match fd !! m with
  | Some v => if String.eqb v "" then None else Some v
  | None => None
  end.

(** The elements of a delta that are changed (with their data) and those
    that are deleted. *)
Definition changed_of (fd : gmap string string) (l : list (string * Z))
  : list (string * string) :=
  omap (λ ms, pair ms.1 <$> has_data fd ms.1) l.

Definition deleted_of (fd : gmap string string) (l : list (string * Z))
  : list string :=
  omap (λ ms, match has_data fd ms.1 with
              | None => Some ms.1
              | Some _ => None
              end) l.

(** The transaction of a full update from the source [prod]. *)
Definition full_transaction (prod : redis) : list command :=
  [Delete full_data_key; Delete change_id_key; Delete schema_key]
  ++ (if decide (full_data prod = ∅) then []
      else [Hmset full_data_key (flat_hash (map_to_list (full_data prod)))])
  ++ (if decide (change_id prod = ∅) then []
      else [Zadd change_id_key (flat_scores (zrangebyscore (change_id prod) None))])
  ++ (if decide (schema prod = ∅) then []
      else [Hmset schema_key (flat_hash (map_to_list (schema prod)))]).

(** The transaction of a partial update for a non-empty delta. *)
Definition partial_transaction (prod : redis) (delta : list (string * Z))
  : list command :=
  (if nonempty (changed_of (full_data prod) delta)
   then [Hmset full_data_key (flat_hash (changed_of (full_data prod) delta))]
   else [])
  ++ (if nonempty (deleted_of (full_data prod) delta)
      then [Hdel full_data_key (PBytes <$> deleted_of (full_data prod) delta)]
      else [])
  ++ [Zadd change_id_key (flat_scores delta)].

(** Inspection followed by a partial update: an incremental sync. *)
Definition incremental_sync (self : Synchronizer) : M unit :=
  let* self := fetch_ro_redis_data self in do_partial_update self.

(** The writes to the read-only redis among some round trips. *)
Definition is_write (e : event) : bool :=
  match e with RoMultiExec _ => true | _ => false end.

(** What the inspection of the read-only redis finds: the current change
    id (the highest score, or ["-inf"]), the lowest change id, and the
    round trips it takes. *)
Definition ro_cursor (ro : redis) : pyval :=
  match max_entry (map_to_list (change_id ro)) with
  | Some e => PInt e.2
  | None => PStr "-inf"
  end.

Definition ro_lowest (ro : redis) : pyval :=
  match max_entry (map_to_list (change_id ro)) with
  | Some _ =>
      match change_id ro !! lowest_change_id_member with
      | Some s => PInt s
      | None => PNone
      end
  | None => PNone
  end.

Definition inspect_events (ro : redis) : list event :=
  match max_entry (map_to_list (change_id ro)) with
  | Some _ => [RoZrevrangebyscore change_id_key;
               RoZscore change_id_key lowest_change_id_member;
               RoHgetall schema_key]
  | None => [RoZrevrangebyscore change_id_key; RoHgetall schema_key]
  end.

(** The read-only redis after a delta of the source was merged into it. *)
Definition apply_delta (prod : redis) (delta : list (string * Z)) (ro : redis)
  : redis :=
  Redis (list_to_map delta ∪ change_id ro)
        (hdel_all (deleted_of (full_data prod) delta)
           (list_to_map (changed_of (full_data prod) delta) ∪ full_data ro))
        (schema ro) (production_marker ro) (script_cache ro).

(** The lowest change id of the production redis as [zscore] replies it. *)
Definition prod_lowest (prod : redis) : pyval :=
  match change_id prod !! lowest_change_id_member with
  | Some s => PInt s
  | None => PNone
  end.

(** The attributes of [self] once steps 1 and 2 of [sync_redis] are done:
    the inspected state the decision is taken on. *)
Definition inspected (prod ro : redis) : Synchronizer :=
  Self (ro_cursor ro) (ro_lowest ro) (hash_items (schema ro))
       (prod_lowest prod) (hash_items (schema prod)).

(** The lower bound of the delta for an inspected read-only redis: one
    above its highest score, or none when it has no change id at all. *)
Definition floor_of (ro : redis) : option Z :=
  match max_entry (map_to_list (change_id ro)) with
  | Some e => Some (e.2 + 1)
  | None => None
  end.

(** The read-only redis after a full update from [prod]. *)
Definition replaced_by (prod ro : redis) : redis :=
  Redis (change_id prod) (full_data prod) (schema prod)
        (production_marker ro) (script_cache ro).

(** The round trips of steps 0 to 2 of a run that is not aborted. *)
Definition inspection_events (ro : redis) : list event :=
  [ProdGet production_marker_key] ++ inspect_events ro
  ++ [ProdZscore change_id_key lowest_change_id_member; ProdHgetall schema_key].




(** A server whose connection is gone: every call raises. *)
Inductive closed_connection : Type := Closed.

#[global] Instance closed_script_server : ScriptServer closed_connection :=
  {| evalsha := λ c _ _ _, (inl (ConnectionError "Connection closed"), c);
     eval := λ c _ _ _, (inl (ConnectionError "Connection closed"), c) |}.

(** Two servers used as a running example: the replica stands at change
    id 3; since then the source has added [c] (change id 4) and deleted [b]
    (change id 5), and it has another [db] schema version. *)
Definition example_prod : redis :=
  Redis (list_to_map [(lowest_change_id_member, 1); ("a", 2); ("b", 5); ("c", 4)])
        (list_to_map [("a", "va"); ("c", "vc")])
        (list_to_map [("db", "2"); ("config", "1"); ("migration", "1")])
        (Some "1") ∅.

Definition example_ro : redis :=
  Redis (list_to_map [(lowest_change_id_member, 1); ("a", 2); ("b", 3)])
        (list_to_map [("a", "va"); ("b", "vb")])
        (list_to_map [("db", "1"); ("config", "1"); ("migration", "1")])
        None ∅.


(** ** Where the model is exact *)

(** Redis keeps a score as a double and sends it as text.  For an integer
    below 2^53 in absolute value the double is exact, so is the score plus
    one, the text is the plain decimal one and the client hands it over as
    an [int].  The statements on what an update fetches and writes are
    for such change ids, and for a lower bound in that range. *)
Definition exact_scores (z : gmap string Z) : Prop :=
  map_Forall (λ _ s, Z.abs s < 2 ^ 53) z.

#[global] Instance exact_scores_dec z : Decision (exact_scores z).
Proof. unfold exact_scores. apply _. Defined.

Definition exact_bound (min : option Z) : Prop :=
  match min with
  | Some z => Z.abs z ≤ 2 ^ 53
  | None => True
  end.

(** [fetch_ro_redis_data] decodes the names and values of the schema hash
    for its log line, which raises on bytes that are no UTF-8.  Bytes
    below 128 always decode; the statements on an inspection that returns
    are for schema hashes made of such bytes. *)
Definition ascii_only (s : string) : bool :=
  forallb (λ a, (Ascii.N_of_ascii a <? 128)%N) (list_ascii_of_string s).

Definition ascii_schema (h : gmap string string) : Prop :=
  map_Forall (λ k v, ascii_only k = true ∧ ascii_only v = true) h.

#[global] Instance ascii_schema_dec h : Decision (ascii_schema h).
Proof. unfold ascii_schema. apply _. Defined.

(** The transaction of a full update, given the three replies in the
    order the server sent their entries. *)
Definition full_transaction_of (fd : list (string * string))
    (cid : list (string * Z)) (sch : list (string * string)) : list command :=
  [Delete full_data_key; Delete change_id_key; Delete schema_key]
  ++ (if nonempty fd then [Hmset full_data_key (flat_hash fd)] else [])
  ++ (if nonempty cid then [Zadd change_id_key (flat_scores cid)] else [])
  ++ (if nonempty sch then [Hmset schema_key (flat_hash sch)] else []).

(** ** main *)

(** What [main] does around a run: it connects to both servers, lets the
    synchronizer make its round trips, catches an exception (and logs it),
    and closes the connections it has. *)
Inductive main_event : Type :=
  | CreateRedis (production : bool)
  | RoundTrip (e : event)
  | Caught (e : exn)
  | CloseRedis (production : bool).

(** The two local variables of [main], [None] until the connection is
    made, and what has happened so far. *)
Record main_state : Type := MainState {
  main_production_redis : option redis;
  main_ro_redis : option redis;
  main_events : list main_event
}.

(** The [try] block.  [connect_prod] and [connect_ro] are what
    [aioredis.create_redis] gives for the two addresses: the server
    reached, or the exception raised. *)
Definition main_try (connect_prod connect_ro : exn + redis)
  : (exn + unit) * main_state :=
  match connect_prod with
  | inl e => (inl e, MainState None None [CreateRedis true])
  | inr prod =>
      match connect_ro with
      | inl e =>
          (inl e, MainState (Some prod) None [CreateRedis true; CreateRedis false])
      | inr ro =>
          let '(res, w) := run prod ro in
          (match res with inl e => inl e | inr _ => inr tt end,
           MainState (Some (production_redis w)) (Some (ro_redis w))
             ([CreateRedis true; CreateRedis false] ++ (RoundTrip <$> trace w)))
      end
  end.

(** The [except] clause and the [finally] block. *)
Definition main_except (res : exn + unit) (st : main_state) : main_state :=
  match res with
  | inl e =>
      MainState (main_production_redis st) (main_ro_redis st)
        (main_events st ++ [Caught e])
  | inr _ => st
  end.

Definition main_finally (st : main_state) : main_state :=
  let st :=
    match main_production_redis st with
    | Some _ =>
        MainState (main_production_redis st) (main_ro_redis st)
          (main_events st ++ [CloseRedis true])
    | None => st
    end in
  match main_ro_redis st with
  | Some _ =>
      MainState (main_production_redis st) (main_ro_redis st)
        (main_events st ++ [CloseRedis false])
  | None => st
  end.

Definition main (connect_prod connect_ro : exn + redis) : main_state :=
  let '(res, st) := main_try connect_prod connect_ro in
  main_finally (main_except res st).

(** * Properties *)

(** ** Values on the wire *)

Lemma py_int_score_text (z : Z) : py_int (PBytes (score_text z)) = inr z.
Proof.
  unfold py_int, score_text.
  rewrite NilZero.isi.
  - by rewrite DecimalZ.of_to.
  - destruct z; simpl; [done | | done].
    intros [= H]. by apply DecimalPos.Unsigned.to_uint_nonnil in H.
  - destruct z; simpl; [done | done |].
    intros [= H]. by apply DecimalPos.Unsigned.to_uint_nonnil in H.
Qed.

Lemma convert_flat_withscores (l : list (string * Z)) :
  convert_change_id_list (flat_withscores l) = inr (flat_scores l).
Proof.
  induction l as [|[m s] l IH]; [done|].
  cbn [flat_withscores flat_scores mbind list_bind app fst snd
       convert_change_id_list] in *.
  unfold flat_withscores, flat_scores in IH.
  by rewrite py_int_score_text, IH.
Qed.

Lemma score_member_flat_scores (l : list (string * Z)) :
  score_member_pairs (flat_scores l) = Some ((λ ms, (ms.2, ms.1)) <$> l).
Proof.
  induction l as [|[m s] l IH]; [done|].
  cbn [flat_scores mbind list_bind app fst snd score_member_pairs
       encode_arg option_bind fmap list_fmap] in *.
  unfold flat_scores in IH. by rewrite IH.
Qed.

Lemma field_value_flat_hash (l : list (string * string)) :
  field_value_pairs (flat_hash l) = Some l.
Proof.
  induction l as [|[f v] l IH]; [done|].
  cbn [flat_hash mbind list_bind app fst snd field_value_pairs
       encode_arg option_bind] in *.
  unfold flat_hash in IH. by rewrite IH.
Qed.

Lemma encode_bytes (l : list string) : mapM encode_arg (PBytes <$> l) = Some l.
Proof. induction l as [|x l IH]; [done|]. cbn. by rewrite IH. Qed.

Lemma nonempty_flat_hash (l : list (string * string)) :
  nonempty (flat_hash l) = nonempty l.
Proof. by destruct l as [|[]]. Qed.

Lemma nonempty_flat_scores (l : list (string * Z)) :
  nonempty (flat_scores l) = nonempty l.
Proof. by destruct l as [|[]]. Qed.

Lemma nonempty_flat_lookup h (l : list (string * Z)) :
  nonempty (flat_lookup h l) = nonempty l.
Proof. by destruct l as [|[]]. Qed.

Lemma nonempty_fmap {A B} (f : A → B) (l : list A) :
  nonempty (f <$> l) = nonempty l.
Proof. by destruct l. Qed.

Lemma nonempty_false {A} (l : list A) : nonempty l = false ↔ l = [].
Proof. by destruct l. Qed.

(** A reply of [hgetall] has only [bytes] keys: a [str] key finds
    nothing. *)
Lemma dict_get_str (h : gmap string string) (s : string) :
  dict_get (hash_items h) (PStr s) = PNone.
Proof.
  unfold hash_items. induction (map_to_list h) as [|[f v] l IH]; [done|].
  cbn. rewrite bool_decide_eq_false_2 by done. exact IH.
Qed.

Lemma dict_get_bytes (h : gmap string string) (f : string) :
  dict_get (hash_items h) (PBytes f) =
  match h !! f with Some v => PBytes v | None => PNone end.
Proof.
  unfold hash_items.
  assert (Hl : ∀ l : list (string * string), NoDup (l.*1) →
    dict_get ((λ kv, (PBytes kv.1, PBytes kv.2)) <$> l) (PBytes f) =
    match (list_to_map l : gmap string string) !! f with
    | Some v => PBytes v | None => PNone end).
  { induction l as [|[f' v] l IH]; intros Hnd; [done|].
    apply NoDup_cons in Hnd as [Hf' Hnd]. cbn.
    destruct (decide (f' = f)) as [->|Hne].
    - rewrite bool_decide_eq_true_2 by done. by rewrite lookup_insert_eq.
    - rewrite bool_decide_eq_false_2 by congruence.
      rewrite lookup_insert_ne by done. by apply IH. }
  rewrite Hl by apply NoDup_fst_map_to_list.
  by rewrite list_to_map_to_list.
Qed.

(** ** The stores *)

Lemma max_entry_None (l : list (string * Z)) : max_entry l = None ↔ l = [].
Proof.
  destruct l as [|e l]; [done|]. cbn.
  split; [|done]. destruct (max_entry l) as [e'|]; [|done].
  by destruct (Z.ltb e'.2 e.2).
Qed.

Lemma max_entry_Some (l : list (string * Z)) (e : string * Z) :
  max_entry l = Some e → e ∈ l ∧ ∀ e', e' ∈ l → e'.2 ≤ e.2.
Proof.
  revert e. induction l as [|x l IH]; intros e; [done|]. cbn.
  destruct (max_entry l) as [e0|] eqn:Hmax.
  - destruct (IH e0 eq_refl) as [Hin Hle].
    destruct (Z.ltb_spec e0.2 x.2) as [Hlt|Hge]; intros [= <-].
    + split; [left|]. intros e' [->|He']%elem_of_cons; [lia|].
      specialize (Hle e' He'). lia.
    + split; [by right|]. intros e' [->|He']%elem_of_cons; [lia|].
      by apply Hle.
  - apply max_entry_None in Hmax as ->. intros [= <-].
    split; [left|]. by intros e' ->%list_elem_of_singleton.
Qed.

Lemma zrangebyscore_perm (z : gmap string Z) (min : option Z) :
  zrangebyscore z min ≡ₚ filter (from_min min) (map_to_list z).
Proof. apply merge_sort_Permutation. Qed.

Lemma zrangebyscore_NoDup (z : gmap string Z) (min : option Z) :
  NoDup ((zrangebyscore z min).*1).
Proof.
  rewrite zrangebyscore_perm.
  eapply sublist_NoDup; [apply (NoDup_fst_map_to_list z)|].
  apply fmap_sublist, sublist_filter.
Qed.

Lemma elem_of_zrangebyscore (z : gmap string Z) (min : option Z) m s :
  (m, s) ∈ zrangebyscore z min ↔ z !! m = Some s ∧ from_min min (m, s).
Proof.
  rewrite zrangebyscore_perm, list_elem_of_filter, elem_of_map_to_list.
  tauto.
Qed.

Lemma zrangebyscore_all (z : gmap string Z) :
  zrangebyscore z None ≡ₚ map_to_list z.
Proof.
  rewrite zrangebyscore_perm.
  induction (map_to_list z) as [|e l IH]; [done|].
  rewrite filter_cons_True by done. by rewrite IH.
Qed.

Lemma zrangebyscore_nil (z : gmap string Z) (min : option Z) :
  zrangebyscore z min = [] ↔ ∀ m s, z !! m = Some s → ¬ from_min min (m, s).
Proof.
  split.
  - intros Hnil m s Hm Hge.
    assert (Hin : (m, s) ∈ zrangebyscore z min) by by apply elem_of_zrangebyscore.
    rewrite Hnil in Hin. by apply elem_of_nil in Hin.
  - intros Hno. destruct (zrangebyscore z min) as [|[m s] l] eqn:Hz; [done|].
    assert (Hin : (m, s) ∈ zrangebyscore z min) by (rewrite Hz; left).
    apply elem_of_zrangebyscore in Hin as [Hm Hge]. by destruct (Hno m s).
Qed.

(** Setting fields with distinct names, one after the other, lays the new
    fields over the old hash. *)
Lemma hmset_all_union (l : list (string * string)) (h : gmap string string) :
  NoDup (l.*1) → hmset_all l h = list_to_map l ∪ h.
Proof.
  unfold hmset_all. revert h.
  induction l as [|[f v] l IH]; intros h Hnd.
  - cbn. by rewrite (left_id_L ∅ (∪)).
  - rewrite fmap_cons in Hnd. apply NoDup_cons in Hnd as [Hf Hnd].
    cbn. rewrite IH by done.
    rewrite <- insert_union_l. symmetry. apply insert_union_r.
    by apply not_elem_of_list_to_map_1.
Qed.

Lemma zadd_all_union (l : list (string * Z)) (z : gmap string Z) :
  NoDup (l.*1) → zadd_all ((λ ms, (ms.2, ms.1)) <$> l) z = list_to_map l ∪ z.
Proof.
  unfold zadd_all. revert z.
  induction l as [|[m s] l IH]; intros z Hnd.
  - cbn. by rewrite (left_id_L ∅ (∪)).
  - rewrite fmap_cons in Hnd. apply NoDup_cons in Hnd as [Hm Hnd].
    cbn. rewrite IH by done.
    rewrite <- insert_union_l. symmetry. apply insert_union_r.
    by apply not_elem_of_list_to_map_1.
Qed.

Lemma hdel_all_lookup (l : list string) (h : gmap string string) f :
  hdel_all l h !! f = if decide (f ∈ l) then None else h !! f.
Proof.
  unfold hdel_all. revert h.
  induction l as [|x l IH]; intros h; cbn; [done|].
  rewrite IH. destruct (decide (f = x)) as [->|Hne].
  - rewrite lookup_delete_eq. rewrite (decide_True _ _ (list_elem_of_here x l)).
    by destruct (decide (x ∈ l)).
  - rewrite lookup_delete_ne by done.
    destruct (decide (f ∈ l)) as [Hin|Hnin].
    + by rewrite decide_True by by right.
    + rewrite decide_False; [done|]. by intros [?|?]%elem_of_cons.
Qed.

(** ** Running scripts on the production redis *)

Lemma run_script_cache_script body body' r keys args :
  run_script body (cache_script body' r) keys args = run_script body r keys args.
Proof. done. Qed.

Lemma eval_on_redis script keys args (r : redis) rep :
  run_script script r keys args = inr rep →
  eval_on r script keys args =
    (inr rep, prod_after script r, script_events script keys args r).
Proof.
  intros Hrun. unfold eval_on, prod_after, script_events. cbn.
  destruct (decide (script ∈ script_cache r)) as [Hin|Hnin].
  - by rewrite Hrun.
  - cbn. unfold redis_eval. by rewrite Hrun.
Qed.

Lemma eval_production_redis_ok script keys args w rep :
  run_script script (production_redis w) keys args = inr rep →
  eval_production_redis script keys args w =
    (inr rep,
     World (prod_after script (production_redis w)) (ro_redis w)
       (trace w ++ script_events script keys args (production_redis w))).
Proof.
  intros Hrun. unfold eval_production_redis.
  by rewrite (eval_on_redis _ _ _ _ _ Hrun).
Qed.

Lemma run_full_update_script (r : redis) :
  run_script full_update_script r [full_data_key; change_id_key; schema_key] [] =
  inr [flat_hash (map_to_list (full_data r));
       flat_withscores (zrangebyscore (change_id r) None);
       flat_hash (map_to_list (schema r))].
Proof. unfold run_script. by rewrite decide_True. Qed.

Lemma scripts_differ : partial_update_script ≠ full_update_script.
Proof. by vm_compute. Qed.

Lemma run_partial_update_script (r : redis) (a : pyval) (min : option Z) :
  range_min a = Some min →
  run_script partial_update_script r [full_data_key; change_id_key] [a] =
  inr [flat_lookup (full_data r) (zrangebyscore (change_id r) min);
       flat_withscores (zrangebyscore (change_id r) min)].
Proof.
  intros Hmin. unfold run_script.
  rewrite (decide_False _ _ scripts_differ), decide_True by done.
  cbn. by rewrite Hmin.
Qed.

Lemma prod_after_data script r :
  change_id (prod_after script r) = change_id r
  ∧ full_data (prod_after script r) = full_data r
  ∧ schema (prod_after script r) = schema r
  ∧ production_marker (prod_after script r) = production_marker r.
Proof. unfold prod_after. by destruct (decide _). Qed.

(** ** Transactions on the read-only redis *)

Lemma run_commands_app cs1 cs2 (r r1 : redis) :
  run_commands cs1 r = (true, r1) →
  run_commands (cs1 ++ cs2) r = run_commands cs2 r1.
Proof.
  revert r. induction cs1 as [|c cs1 IH]; intros r; cbn.
  - by intros [= ->].
  - destruct (run_command c r) as [r'|]; [by apply IH|].
    by destruct (run_commands cs1 r).
Qed.

Lemma run_hmset_full_data l (r : redis) :
  run_command (Hmset full_data_key (flat_hash l)) r =
  Some (Redis (change_id r) (hmset_all l (full_data r)) (schema r)
          (production_marker r) (script_cache r)).
Proof. cbn. by rewrite field_value_flat_hash. Qed.

Lemma run_hmset_schema l (r : redis) :
  run_command (Hmset schema_key (flat_hash l)) r =
  Some (Redis (change_id r) (full_data r) (hmset_all l (schema r))
          (production_marker r) (script_cache r)).
Proof. cbn. by rewrite field_value_flat_hash. Qed.

Lemma run_zadd l (r : redis) :
  run_command (Zadd change_id_key (flat_scores l)) r =
  Some (Redis (zadd_all ((λ ms, (ms.2, ms.1)) <$> l) (change_id r))
          (full_data r) (schema r) (production_marker r) (script_cache r)).
Proof. cbn. by rewrite score_member_flat_scores. Qed.

Lemma run_hdel l (r : redis) :
  run_command (Hdel full_data_key (PBytes <$> l)) r =
  Some (Redis (change_id r) (hdel_all l (full_data r)) (schema r)
          (production_marker r) (script_cache r)).
Proof. cbn. by rewrite encode_bytes. Qed.

Lemma run_delete k (r : redis) : run_command (Delete k) r = Some (redis_delete r k).
Proof. done. Qed.

(** Runs the commands of a transaction one by one. *)
Ltac run_transaction :=
  repeat (cbn [app run_commands];
          first [ rewrite run_delete | rewrite run_hmset_full_data
                | rewrite run_hmset_schema | rewrite run_zadd
                | rewrite run_hdel ]);
  cbn [app run_commands redis_delete change_id full_data schema
       production_marker script_cache].

Lemma ro_execute_ok cs w r' :
  forallb command_ok cs = true →
  run_commands cs (ro_redis w) = (true, r') →
  ro_execute cs w =
    (inr tt, World (production_redis w) r' (trace w ++ [RoMultiExec cs])).
Proof.
  intros Hok Hrun. unfold ro_execute. rewrite Hok.
  unfold bind, emit. cbn. by rewrite Hrun.
Qed.

Lemma hmset_ok k l : l ≠ [] → command_ok (Hmset k (flat_hash l)) = true.
Proof.
  intros Hl. cbn. rewrite nonempty_flat_hash, field_value_flat_hash.
  rewrite bool_decide_eq_true_2 by done. by destruct l.
Qed.

Lemma zadd_ok k l : l ≠ [] → command_ok (Zadd k (flat_scores l)) = true.
Proof.
  intros Hl. cbn. rewrite nonempty_flat_scores, score_member_flat_scores.
  rewrite bool_decide_eq_true_2 by done. by destruct l.
Qed.

Lemma hdel_ok k (l : list string) :
  l ≠ [] → command_ok (Hdel k (PBytes <$> l)) = true.
Proof.
  intros Hl. cbn. rewrite nonempty_fmap, encode_bytes.
  rewrite bool_decide_eq_true_2 by done. by destruct l.
Qed.

Lemma nonempty_map_to_list {A} (m : gmap string A) :
  nonempty (map_to_list m) = if decide (m = ∅) then false else true.
Proof.
  destruct (decide (m = ∅)) as [->|Hne].
  - by rewrite map_to_list_empty.
  - destruct (map_to_list m) eqn:Hl; [|done].
    by apply map_to_list_empty_iff in Hl.
Qed.

Lemma zrangebyscore_all_nil (z : gmap string Z) :
  zrangebyscore z None = [] ↔ z = ∅.
Proof.
  rewrite <- map_to_list_empty_iff. split; intros Hnil.
  - apply Permutation_nil_r. rewrite <- Hnil. symmetry. apply zrangebyscore_all.
  - apply Permutation_nil_r. rewrite <- Hnil. apply zrangebyscore_all.
Qed.

Lemma nonempty_zrangebyscore_all (z : gmap string Z) :
  nonempty (zrangebyscore z None) = if decide (z = ∅) then false else true.
Proof.
  destruct (decide (z = ∅)) as [Hz|Hz].
  - by apply zrangebyscore_all_nil in Hz as ->.
  - destruct (zrangebyscore z None) eqn:Hl; [|done].
    by apply zrangebyscore_all_nil in Hl.
Qed.

Lemma list_to_map_zrangebyscore_all (z : gmap string Z) :
  list_to_map (zrangebyscore z None) = z.
Proof.
  rewrite <- (list_to_map_to_list z) at 2.
  apply list_to_map_proper; [apply zrangebyscore_NoDup|apply zrangebyscore_all].
Qed.

Lemma full_transaction_ok prod : forallb command_ok (full_transaction prod) = true.
Proof.
  unfold full_transaction.
  destruct (decide (full_data prod = ∅)) as [Hfd|Hfd];
  destruct (decide (change_id prod = ∅)) as [Hcid|Hcid];
  destruct (decide (schema prod = ∅)) as [Hsch|Hsch];
  cbn [app forallb];
  rewrite ?hmset_ok, ?zadd_ok; try done;
  by rewrite ?zrangebyscore_all_nil, ?map_to_list_empty_iff.
Qed.

Lemma run_full_transaction prod (r : redis) :
  run_commands (full_transaction prod) r =
  (true, Redis (change_id prod) (full_data prod) (schema prod)
           (production_marker r) (script_cache r)).
Proof.
  unfold full_transaction.
  destruct (decide (full_data prod = ∅)) as [Hfd|Hfd];
  destruct (decide (change_id prod = ∅)) as [Hcid|Hcid];
  destruct (decide (schema prod = ∅)) as [Hsch|Hsch];
  run_transaction;
  rewrite ?hmset_all_union by apply NoDup_fst_map_to_list;
  rewrite ?zadd_all_union by apply zrangebyscore_NoDup;
  rewrite ?list_to_map_to_list, ?list_to_map_zrangebyscore_all,
    ?(right_id_L ∅ (∪));
  by rewrite ?Hfd, ?Hcid, ?Hsch.
Qed.

(** ** The methods, run on a world *)

Lemma fetch_ro_redis_data_run self w :
  fetch_ro_redis_data self w =
  (inr (Self (ro_cursor (ro_redis w)) (ro_lowest (ro_redis w))
          (hash_items (schema (ro_redis w)))
          (lowest_change_id_prod self) (schema_production self)),
   World (production_redis w) (ro_redis w)
     (trace w ++ inspect_events (ro_redis w))).
Proof.
  destruct w as [prod ro t].
  unfold fetch_ro_redis_data, ro_cursor, ro_lowest, inspect_events.
  unfold bind, ro_zrevrangebyscore, ro_zscore, ro_hgetall, on_ro, bind, emit,
    ret. cbn.
  destruct (max_entry (map_to_list (change_id ro))) as [e|]; cbn;
    by rewrite <- ?app_assoc.
Qed.

Lemma do_full_update_run self w :
  do_full_update self w =
  (inr tt,
   World (prod_after full_update_script (production_redis w))
     (Redis (change_id (production_redis w)) (full_data (production_redis w))
        (schema (production_redis w)) (production_marker (ro_redis w))
        (script_cache (ro_redis w)))
     (trace w
      ++ script_events full_update_script
           [full_data_key; change_id_key; schema_key] [] (production_redis w)
      ++ [RoMultiExec (full_transaction (production_redis w))])).
Proof.
  unfold do_full_update, bind.
  rewrite (eval_production_redis_ok _ _ _ _ _ (run_full_update_script _)).
  unfold lift. rewrite convert_flat_withscores.
  rewrite !nonempty_flat_hash, nonempty_flat_scores, !nonempty_map_to_list,
    nonempty_zrangebyscore_all.
  set (w1 := World _ _ _).
  match goal with
  | |- ro_execute ?tx _ = _ =>
      replace tx with (full_transaction (production_redis w))
        by (unfold full_transaction; by repeat destruct (decide _))
  end.
  rewrite (ro_execute_ok _ w1 _ (full_transaction_ok _) (run_full_transaction _ _)).
  subst w1. cbn. by rewrite <- app_assoc.
Qed.

Lemma split_flat_lookup (fd : gmap string string) (l : list (string * Z)) :
  split_partial_full_data (flat_lookup fd l) =
  inr (flat_hash (changed_of fd l), PBytes <$> deleted_of fd l).
Proof.
  induction l as [|[m s] l IH]; [done|].
  unfold flat_lookup in *.
  cbn [mbind list_bind app fst snd split_partial_full_data].
  rewrite IH. unfold changed_of, deleted_of, lua_hget, has_data. cbn.
  destruct (fd !! m) as [v|]; cbn; [|done].
  by destruct (String.eqb v "").
Qed.

Lemma apply_delta_nil prod ro : apply_delta prod [] ro = ro.
Proof.
  unfold apply_delta. cbn. rewrite !(left_id_L ∅ (∪)). by destruct ro.
Qed.

Lemma partial_transaction_ok prod delta :
  delta ≠ [] → forallb command_ok (partial_transaction prod delta) = true.
Proof.
  intros Hd. unfold partial_transaction.
  destruct (changed_of _ _) eqn:Hc; destruct (deleted_of _ _) eqn:Hdl;
    cbn [nonempty app forallb];
    rewrite ?hmset_ok, ?hdel_ok, ?zadd_ok; done.
Qed.

Lemma run_partial_transaction prod delta (ro : redis) :
  NoDup (delta.*1) → NoDup ((changed_of (full_data prod) delta).*1) →
  run_commands (partial_transaction prod delta) ro =
  (true, apply_delta prod delta ro).
Proof.
  intros Hnd Hndc. unfold partial_transaction, apply_delta.
  destruct (changed_of _ _) as [|c cs] eqn:Hc;
    destruct (deleted_of _ _) as [|d ds] eqn:Hdl;
    cbn [nonempty]; run_transaction;
    rewrite ?hmset_all_union by done;
    rewrite ?zadd_all_union by done; cbn;
    by rewrite ?(left_id_L ∅ (∪)).
Qed.


Lemma changed_of_sublist (fd : gmap string string) (l : list (string * Z)) :
  (changed_of fd l).*1 `sublist_of` l.*1.
Proof.
  induction l as [|[m s] l IH]; [done|].
  unfold changed_of in *. cbn.
  destruct (has_data fd m) as [v|]; cbn.
  - by apply sublist_skip.
  - by apply sublist_cons.
Qed.

Lemma changed_of_NoDup (fd : gmap string string) (l : list (string * Z)) :
  NoDup (l.*1) → NoDup ((changed_of fd l).*1).
Proof. intros Hnd. eapply sublist_NoDup; [done|apply changed_of_sublist]. Qed.

Lemma elem_of_changed_of (fd : gmap string string) (l : list (string * Z)) m v :
  (m, v) ∈ changed_of fd l ↔ has_data fd m = Some v ∧ m ∈ l.*1.
Proof.
  unfold changed_of. rewrite list_elem_of_omap, list_elem_of_fmap. split.
  - intros [[m' s] [Hin Hsome]]. cbn in Hsome.
    destruct (has_data fd m') as [v'|] eqn:Hd; [|done].
    injection Hsome as -> ->. split; [done|]. by exists (m, s).
  - intros [Hd [[m' s] [-> Hin]]]. exists (m', s). split; [done|].
    cbn in *. by rewrite Hd.
Qed.

Lemma elem_of_deleted_of (fd : gmap string string) (l : list (string * Z)) m :
  m ∈ deleted_of fd l ↔ has_data fd m = None ∧ m ∈ l.*1.
Proof.
  unfold deleted_of. rewrite list_elem_of_omap, list_elem_of_fmap. split.
  - intros [[m' s] [Hin Hsome]]. cbn in Hsome.
    destruct (has_data fd m') as [v'|] eqn:Hd; [done|].
    injection Hsome as ->. split; [done|]. by exists (m, s).
  - intros [Hd [[m' s] [-> Hin]]]. exists (m', s). split; [done|].
    cbn in *. by rewrite Hd.
Qed.

Lemma do_partial_update_run self w min :
  range_min (fetch_floor self) = Some min →
  do_partial_update self w =
  (inr tt,
   World (prod_after partial_update_script (production_redis w))
     (apply_delta (production_redis w)
        (zrangebyscore (change_id (production_redis w)) min) (ro_redis w))
     (trace w
      ++ script_events partial_update_script [full_data_key; change_id_key]
           [fetch_floor self] (production_redis w)
      ++ (if nonempty (zrangebyscore (change_id (production_redis w)) min)
          then [RoMultiExec
                  (partial_transaction (production_redis w)
                     (zrangebyscore (change_id (production_redis w)) min))]
          else []))).
Proof.
  intros Hmin. unfold do_partial_update, bind.
  rewrite (eval_production_redis_ok _ _ _ _ _
             (run_partial_update_script _ _ _ Hmin)).
  set (delta := zrangebyscore _ _).
  unfold lift. rewrite convert_flat_withscores, split_flat_lookup.
  rewrite nonempty_flat_lookup, !nonempty_flat_scores, nonempty_flat_hash,
    nonempty_fmap, orb_diag.
  destruct (nonempty delta) eqn:Hne.
  - match goal with
    | |- ro_execute ?tx ?w1 = _ =>
        change tx with (partial_transaction (production_redis w) delta);
        rewrite (ro_execute_ok _ w1 (apply_delta (production_redis w) delta (ro_redis w)))
    end.
    + cbn. by rewrite <- app_assoc.
    + apply partial_transaction_ok. by destruct delta.
    + apply run_partial_transaction; [apply zrangebyscore_NoDup|].
      apply changed_of_NoDup, zrangebyscore_NoDup.
  - apply nonempty_false in Hne. rewrite Hne, apply_delta_nil.
    unfold ret. by rewrite app_nil_r.
Qed.

(** ** A whole run *)

Lemma range_min_inspected prod ro :
  range_min (fetch_floor (inspected prod ro)) = Some (floor_of ro).
Proof.
  unfold fetch_floor, inspected, ro_cursor, floor_of. cbn.
  by destruct (max_entry _).
Qed.

Lemma prod_get_marker_run w :
  prod_get production_marker_key w =
  (inr (match production_marker (production_redis w) with
        | Some v => PBytes v
        | None => PNone
        end),
   World (production_redis w) (ro_redis w)
     (trace w ++ [ProdGet production_marker_key])).
Proof. done. Qed.

Lemma prod_zscore_lowest_run w :
  prod_zscore change_id_key lowest_change_id_member w =
  (inr (prod_lowest (production_redis w)),
   World (production_redis w) (ro_redis w)
     (trace w ++ [ProdZscore change_id_key lowest_change_id_member])).
Proof. done. Qed.

Lemma prod_hgetall_schema_run w :
  prod_hgetall schema_key w =
  (inr (hash_items (schema (production_redis w))),
   World (production_redis w) (ro_redis w)
     (trace w ++ [ProdHgetall schema_key])).
Proof. done. Qed.

Lemma run_aborted prod ro :
  (∀ v, production_marker prod = Some v → v = "") →
  run prod ro =
  (inr new_synchronizer, World prod ro [ProdGet production_marker_key]).
Proof.
  intros Hm. unfold run, start, sync_redis, bind.
  rewrite prod_get_marker_run. cbn.
  destruct (production_marker prod) as [v|]; [|done].
  by rewrite (Hm v eq_refl).
Qed.

Lemma run_not_aborted prod ro v :
  production_marker prod = Some v → v ≠ "" →
  run prod ro =
  if check_full_update (inspected prod ro) then
    (inr (inspected prod (replaced_by prod ro)),
     World (prod_after full_update_script prod) (replaced_by prod ro)
       (inspection_events ro
        ++ script_events full_update_script
             [full_data_key; change_id_key; schema_key] [] prod
        ++ [RoMultiExec (full_transaction prod)]
        ++ inspect_events (replaced_by prod ro)))
  else
    (inr (inspected prod
            (apply_delta prod (zrangebyscore (change_id prod) (floor_of ro)) ro)),
     World (prod_after partial_update_script prod)
       (apply_delta prod (zrangebyscore (change_id prod) (floor_of ro)) ro)
       (inspection_events ro
        ++ script_events partial_update_script [full_data_key; change_id_key]
             [fetch_floor (inspected prod ro)] prod
        ++ (if nonempty (zrangebyscore (change_id prod) (floor_of ro))
            then [RoMultiExec
                    (partial_transaction prod
                       (zrangebyscore (change_id prod) (floor_of ro)))]
            else [])
        ++ inspect_events
             (apply_delta prod (zrangebyscore (change_id prod) (floor_of ro)) ro))).
Proof.
  intros Hm Hv. unfold run, start, sync_redis, bind.
  rewrite prod_get_marker_run. cbn [production_redis ro_redis trace app].
  rewrite Hm. cbn [py_bool].
  assert (String.eqb v "" = false) as -> by by apply String.eqb_neq.
  cbn [negb]. rewrite fetch_ro_redis_data_run, prod_zscore_lowest_run,
    prod_hgetall_schema_run.
  cbn [production_redis ro_redis trace change_id_ro lowest_change_id_ro
       schema_ro lowest_change_id_prod schema_production].
  fold (inspected prod ro).
  destruct (check_full_update (inspected prod ro)).
  - rewrite do_full_update_run, fetch_ro_redis_data_run.
    cbn [production_redis ro_redis trace change_id_ro lowest_change_id_ro
         schema_ro lowest_change_id_prod schema_production].
    unfold inspection_events, inspected, replaced_by.
    by rewrite <- !app_assoc.
  - rewrite (do_partial_update_run _ _ _ (range_min_inspected prod ro)),
      fetch_ro_redis_data_run.
    cbn [production_redis ro_redis trace change_id_ro lowest_change_id_ro
         schema_ro lowest_change_id_prod schema_production].
    unfold inspection_events, inspected.
    by rewrite <- !app_assoc.
Qed.

(** Settles a decidable statement on given servers by evaluation. *)
Ltac by_evaluation := apply (bool_decide_unpack _); vm_compute; exact I.

(** ** The decision *)

(** [check_full_update] on any attributes, in terms of what [get] finds. *)
Lemma check_full_update_true (self : Synchronizer) :
  check_full_update self = true ↔
    lowest_change_id_ro self = PNone
    ∨ lowest_change_id_prod self = PNone
    ∨ lowest_change_id_ro self ≠ lowest_change_id_prod self
    ∨ dict_get (schema_ro self) (PStr "db")
        ≠ dict_get (schema_production self) (PStr "db")
    ∨ dict_get (schema_ro self) (PStr "config")
        ≠ dict_get (schema_production self) (PStr "config")
    ∨ dict_get (schema_ro self) (PStr "migration")
        ≠ dict_get (schema_production self) (PStr "migration").
Proof.
  unfold check_full_update, py_ne.
  repeat case_bool_decide; cbn; intuition congruence.
Qed.

(** On an inspected state the schema replies have [bytes] keys, the three
    lookups with [str] keys find nothing on either side, and only the
    lowest change ids decide. *)
Lemma check_full_update_inspected (prod ro : redis) :
  check_full_update (inspected prod ro) = true ↔
    ro_lowest ro = PNone ∨ prod_lowest prod = PNone
    ∨ ro_lowest ro ≠ prod_lowest prod.
Proof.
  rewrite check_full_update_true. unfold inspected. cbn.
  rewrite !dict_get_str. intuition congruence.
Qed.

(** C1, at the failing input: the lowest change ids agree, the [db] schema
    version of the replica differs from the one of the source, and yet
    [check_full_update] answers [False] and the run does a partial update.
    The schema dicts are keyed by [bytes] and asked for [str] keys, so each
    lookup gives [None]; on the decoded dict, which [fetch_ro_redis_data]
    asks the same way for its log line, the lookup finds the version. *)
Theorem schema_change_not_detected :
  ro_lowest example_ro = prod_lowest example_prod
  ∧ schema example_ro !! "db" = Some "1"
  ∧ schema example_prod !! "db" = Some "2"
  ∧ dict_get (schema_ro (inspected example_prod example_ro)) (PStr "db") = PNone
  ∧ dict_get (schema_production (inspected example_prod example_ro)) (PStr "db")
      = PNone
  ∧ dict_get (decoded (schema_ro (inspected example_prod example_ro))) (PStr "db")
      = PStr "1"
  ∧ dict_get (decoded (schema_production (inspected example_prod example_ro)))
      (PStr "db") = PStr "2"
  ∧ check_full_update (inspected example_prod example_ro) = false
  ∧ ProdEvalsha (sha1_hexdigest partial_update_script)
      [full_data_key; change_id_key] [PInt 4] ∈ trace (run example_prod example_ro).2
  ∧ (∀ k a, ProdEvalsha (sha1_hexdigest full_update_script) k a
              ∉ trace (run example_prod example_ro).2)
  ∧ schema (ro_redis (run example_prod example_ro).2) !! "db" = Some "1".
Proof.
  repeat split; try (by vm_compute).
  - apply list_elem_of_In. vm_compute. tauto.
  - intros k a Hin. apply list_elem_of_In in Hin. vm_compute in Hin.
    repeat (destruct Hin as [Heq|Hin]; [discriminate Heq|]). exact Hin.
Qed.

(** ** The marker *)

(** C6: when the marker key of the production redis is absent or falsy,
    the run consists of the one read of that key: no inspection of either
    server, no decision, no transaction, and both servers, the read-only
    one in particular, are exactly as before. *)
Theorem missing_marker_aborts (prod ro : redis) :
  (∀ v, production_marker prod = Some v → py_bool (PBytes v) = false) →
  run prod ro =
  (inr new_synchronizer, World prod ro [ProdGet production_marker_key]).
Proof.
  intros Hm. apply run_aborted. intros v Hv. specialize (Hm v Hv).
  cbn in Hm. apply negb_false_iff in Hm. by apply String.eqb_eq.
Qed.

Lemma missing_marker_aborts_witness :
  run (Redis (change_id example_prod) (full_data example_prod)
         (schema example_prod) (Some "") ∅) example_ro =
  (inr new_synchronizer,
   World (Redis (change_id example_prod) (full_data example_prod)
            (schema example_prod) (Some "") ∅)
     example_ro [ProdGet production_marker_key]).
Proof.
  apply missing_marker_aborts. intros v Hv. injection Hv as <-. reflexivity.
Defined.



(** ** Reads of the production redis *)

(** Goes through the members of a list that is written out. *)
Ltac each_member H :=
  cbn in H;
  repeat (let Heq := fresh "Heq" in
          apply elem_of_cons in H as [Heq|H];
          [try discriminate Heq; try subst; try done|]);
  try (by apply elem_of_nil in H).





(** ** The partial update *)

(** C2: on a read-only redis with exact change ids and an ASCII schema,
    the inspection returns and, on the attributes it sets, the lower bound
    [do_partial_update] sends with the partial script is the current
    change id plus one when that is an [int], and the text ["-inf"]
    otherwise (no change id on the read-only redis). *)
Theorem fetch_floor_after_inspection (self0 self : Synchronizer) (w0 w : world) :
  exact_scores (change_id (ro_redis w0)) →
  ascii_schema (schema (ro_redis w0)) →
  fetch_ro_redis_data self0 w0 = (inr self, w) →
  (∀ c, change_id_ro self = PInt c → fetch_floor self = PInt (c + 1))
  ∧ ((∀ c, change_id_ro self ≠ PInt c) → fetch_floor self = PStr "-inf")
  ∧ ∃ rest,
      trace (do_partial_update self w).2 =
        trace w
        ++ ProdEvalsha (sha1_hexdigest partial_update_script)
             [full_data_key; change_id_key] [fetch_floor self]
           :: rest.
Proof.
  intros _ _. rewrite fetch_ro_redis_data_run. intros [= <- <-].
  set (self := Self _ _ _ _ _).
  assert (Hcur : change_id_ro self = ro_cursor (ro_redis w0)) by done.
  split; [|split].
  - intros c Hc. unfold fetch_floor. by rewrite Hc.
  - intros Hc. unfold fetch_floor. rewrite Hcur in *. unfold ro_cursor in *.
    destruct (max_entry _) as [e|]; [|done]. by destruct (Hc e.2).
  - assert (Hmin : range_min (fetch_floor self) = Some (floor_of (ro_redis w0))).
    { unfold fetch_floor, self, ro_cursor, floor_of. cbn.
      by destruct (max_entry _). }
    rewrite (do_partial_update_run _ _ _ Hmin). cbn [snd trace production_redis].
    unfold script_events. destruct (decide _); eauto.
Qed.

Lemma fetch_floor_after_inspection_witness :
  fetch_floor (inspected example_prod example_ro) = PInt 4.
Proof.
  assert (Hs : exact_scores (change_id example_ro)) by by_evaluation.
  assert (Ha : ascii_schema (schema example_ro)) by by_evaluation.
  apply (proj1 (fetch_floor_after_inspection new_synchronizer
                  (Self (PInt 3) (PInt 1) (hash_items (schema example_ro)) PNone [])
                  (start example_prod example_ro)
                  (World example_prod example_ro (inspect_events example_ro))
                  Hs Ha eq_refl) 3 eq_refl).
Defined.

(** C5: with exact change ids on the source and an exact lower bound, a
    partial update fetches the change ids from the lower bound on, with
    the data of their elements, and succeeds.  Afterwards, on the
    read-only redis, every fetched element that has data on the source has
    that data, every fetched element that has none (no field, or an empty
    value) is gone from the full data, every fetched change id is stored
    under its element id, and nothing else has changed.  It is one
    transaction, for the fetched entries in the order [delta] the server
    sent them: an [hmset] of the changed elements, an [hdel] of the
    deleted ones, a [zadd] of the change ids. *)
Theorem partial_update_applies_delta (self : Synchronizer) (w : world)
    (min : option Z) :
  exact_scores (change_id (production_redis w)) →
  exact_bound min →
  range_min (fetch_floor self) = Some min →
  ∃ w' delta,
    do_partial_update self w = (inr tt, w')
    ∧ delta ≡ₚ filter (from_min min)
                 (map_to_list (change_id (production_redis w)))
    ∧ (∀ m s, change_id (production_redis w) !! m = Some s → from_min min (m, s) →
         change_id (ro_redis w') !! m = Some s
         ∧ (∀ v, full_data (production_redis w) !! m = Some v → v ≠ "" →
              full_data (ro_redis w') !! m = Some v
              ∧ (m, v) ∈ changed_of (full_data (production_redis w)) delta)
         ∧ (full_data (production_redis w) !! m = None
            ∨ full_data (production_redis w) !! m = Some "" →
              full_data (ro_redis w') !! m = None
              ∧ m ∈ deleted_of (full_data (production_redis w)) delta))
    ∧ (∀ m, (∀ s, change_id (production_redis w) !! m = Some s →
                  ¬ from_min min (m, s)) →
         change_id (ro_redis w') !! m = change_id (ro_redis w) !! m
         ∧ full_data (ro_redis w') !! m = full_data (ro_redis w) !! m)
    ∧ schema (ro_redis w') = schema (ro_redis w)
    ∧ filter (λ e, is_write e) (drop (length (trace w)) (trace w')) =
        if nonempty delta
        then [RoMultiExec (partial_transaction (production_redis w) delta)]
        else [].
Proof.
  intros _ _ Hmin.
  exists (do_partial_update self w).2,
    (zrangebyscore (change_id (production_redis w)) min).
  rewrite (do_partial_update_run _ _ _ Hmin). split; [done|].
  split; [apply zrangebyscore_perm|].
  cbn [snd ro_redis trace].
  set (prod := production_redis w). set (ro := ro_redis w).
  set (delta := zrangebyscore (change_id prod) min).
  assert (Hnd : NoDup (delta.*1)) by apply zrangebyscore_NoDup.
  assert (Hdelta : ∀ m, m ∈ delta.*1 ↔
            ∃ s, change_id prod !! m = Some s ∧ from_min min (m, s)).
  { intros m. rewrite list_elem_of_fmap. split.
    - intros [[m' s] [-> Hin]]. exists s. by apply elem_of_zrangebyscore.
    - intros [s Hs]. exists (m, s). split; [done|].
      by apply elem_of_zrangebyscore. }
  assert (Hfd : ∀ m, full_data (apply_delta prod delta ro) !! m =
            if decide (m ∈ delta.*1) then has_data (full_data prod) m
            else full_data ro !! m).
  { intros m. unfold apply_delta. cbn [full_data].
    rewrite hdel_all_lookup, lookup_union.
    destruct (decide (m ∈ delta.*1)) as [Hin|Hnin].
    - destruct (has_data (full_data prod) m) as [v|] eqn:Hd.
      + rewrite decide_False
          by (rewrite elem_of_deleted_of; intros [? _]; congruence).
        assert (Hc : (m, v) ∈ changed_of (full_data prod) delta)
          by by apply elem_of_changed_of.
        apply elem_of_list_to_map in Hc; [|by apply changed_of_NoDup].
        rewrite Hc. by destruct (full_data ro !! m).
      + by rewrite decide_True by by apply elem_of_deleted_of.
    - rewrite decide_False by (rewrite elem_of_deleted_of; by intros [_ ?]).
      rewrite (not_elem_of_list_to_map_1 (changed_of (full_data prod) delta)).
      + by rewrite (left_id_L None _).
      + intros Hc. apply Hnin.
        eapply elem_of_sublist; [exact Hc|apply changed_of_sublist]. }
  assert (Hcid : ∀ m, change_id (apply_delta prod delta ro) !! m =
            match (list_to_map delta : gmap string Z) !! m with
            | Some s => Some s
            | None => change_id ro !! m
            end).
  { intros m. unfold apply_delta. cbn [change_id]. rewrite lookup_union.
    destruct (list_to_map delta !! m), (change_id ro !! m); done. }
  split; [|split; [|split]].
  - intros m s Hm Hge.
    assert (Hin : (m, s) ∈ delta) by by apply elem_of_zrangebyscore.
    assert (Hin1 : m ∈ delta.*1) by (apply Hdelta; eauto).
    split; [|split].
    + rewrite Hcid. apply elem_of_list_to_map in Hin; [|done]. by rewrite Hin.
    + intros v Hv Hne.
      assert (Hd : has_data (full_data prod) m = Some v).
      { unfold has_data. rewrite Hv.
        by rewrite (proj2 (String.eqb_neq v "") Hne). }
      split; [|by apply elem_of_changed_of].
      by rewrite Hfd, decide_True.
    + intros Hv.
      assert (Hd : has_data (full_data prod) m = None).
      { unfold has_data. by destruct Hv as [-> | ->]. }
      split; [|by apply elem_of_deleted_of].
      by rewrite Hfd, decide_True.
  - intros m Hno.
    assert (Hnin : m ∉ delta.*1).
    { rewrite Hdelta. intros [s [Hs Hge]]. by apply (Hno s). }
    split.
    + rewrite Hcid. by rewrite (not_elem_of_list_to_map_1 delta m Hnin).
    + by rewrite Hfd, decide_False.
  - done.
  - rewrite drop_app_length. unfold script_events.
    destruct (decide _); destruct (nonempty delta); done.
Qed.

Lemma partial_update_applies_delta_witness :
  ∃ w',
    do_partial_update (inspected example_prod example_ro)
      (start example_prod example_ro) = (inr tt, w')
    ∧ full_data (ro_redis w') !! "c" = Some "vc"
    ∧ full_data (ro_redis w') !! "b" = None
    ∧ change_id (ro_redis w') !! "b" = Some 5.
Proof.
  assert (Hs : exact_scores (change_id example_prod)) by by_evaluation.
  assert (Hb : exact_bound (Some 4)) by (vm_compute; discriminate).
  destruct (partial_update_applies_delta (inspected example_prod example_ro)
              (start example_prod example_ro) (Some 4) Hs Hb eq_refl)
    as (w' & delta & Hrun & _ & Hdelta & _).
  exists w'. split; [exact Hrun|].
  destruct (Hdelta "c" 4 eq_refl) as (_ & Hc & _); [vm_compute; discriminate|].
  destruct (Hdelta "b" 5 eq_refl) as (Hb5 & _ & Hdel); [vm_compute; discriminate|].
  split; [apply (Hc "vc" eq_refl); discriminate|].
  split; [apply Hdel; by left | exact Hb5].
Defined.

(** ** The full update *)

Lemma full_transaction_replies prod :
  full_transaction prod =
  full_transaction_of (map_to_list (full_data prod))
    (zrangebyscore (change_id prod) None) (map_to_list (schema prod)).
Proof.
  unfold full_transaction, full_transaction_of.
  rewrite !nonempty_map_to_list, nonempty_zrangebyscore_all.
  by repeat destruct (decide _).
Qed.

(** C4: with exact change ids on the source, a full update fetches the
    three structures of the source with one script and succeeds; with the
    entries [fd], [cid] and [sch] of the three replies in the order the
    server sent them, it sends one transaction: the three deletes followed
    by an [hmset] of the full data, a [zadd] of the change ids and an
    [hmset] of the schema, each left out when the source has nothing to
    write; afterwards the full data, the change ids (the entry of the
    lowest change id among them) and the schema of the read-only redis are
    those of the source. *)
Theorem full_update_replaces_replica (self : Synchronizer) (w : world) :
  exact_scores (change_id (production_redis w)) →
  ∃ w' fd cid sch,
    do_full_update self w = (inr tt, w')
    ∧ fd ≡ₚ map_to_list (full_data (production_redis w))
    ∧ cid ≡ₚ map_to_list (change_id (production_redis w))
    ∧ sch ≡ₚ map_to_list (schema (production_redis w))
    ∧ full_data (ro_redis w') = full_data (production_redis w)
    ∧ change_id (ro_redis w') = change_id (production_redis w)
    ∧ schema (ro_redis w') = schema (production_redis w)
    ∧ change_id (ro_redis w') !! lowest_change_id_member
        = change_id (production_redis w) !! lowest_change_id_member
    ∧ trace w' =
        trace w
        ++ script_events full_update_script
             [full_data_key; change_id_key; schema_key] [] (production_redis w)
        ++ [RoMultiExec (full_transaction_of fd cid sch)]
    ∧ (full_data (production_redis w) = ∅ →
       ∀ l, Hmset full_data_key l ∉ full_transaction_of fd cid sch)
    ∧ (change_id (production_redis w) = ∅ →
       ∀ l, Zadd change_id_key l ∉ full_transaction_of fd cid sch)
    ∧ (schema (production_redis w) = ∅ →
       ∀ l, Hmset schema_key l ∉ full_transaction_of fd cid sch).
Proof.
  intros _.
  exists (do_full_update self w).2,
    (map_to_list (full_data (production_redis w))),
    (zrangebyscore (change_id (production_redis w)) None),
    (map_to_list (schema (production_redis w))).
  rewrite do_full_update_run, <- full_transaction_replies.
  cbn [snd ro_redis trace change_id full_data schema].
  split; [done|]. split; [done|]. split; [apply zrangebyscore_all|].
  repeat (split; [done|]).
  unfold full_transaction.
  split; [|split]; intros Hempty l Hin;
    repeat case_decide; try done; by each_member Hin.
Qed.

Lemma full_update_replaces_replica_witness :
  ∃ w',
    do_full_update new_synchronizer (start example_prod (Redis ∅ ∅ ∅ None ∅))
      = (inr tt, w')
    ∧ full_data (ro_redis w') = full_data example_prod
    ∧ change_id (ro_redis w') = change_id example_prod
    ∧ schema (ro_redis w') = schema example_prod.
Proof.
  assert (Hs : exact_scores (change_id example_prod)) by by_evaluation.
  destruct (full_update_replaces_replica new_synchronizer
              (start example_prod (Redis ∅ ∅ ∅ None ∅)) Hs)
    as (w' & fd & cid & sch & Hrun & _ & _ & _ & Hfd & Hcid & Hsch & _).
  exists w'. repeat split; assumption.
Defined.

(** ** Two incremental syncs in a row *)

Lemma max_entry_bound (z : gmap string Z) m s :
  z !! m = Some s → ∃ e, max_entry (map_to_list z) = Some e ∧ s ≤ e.2.
Proof.
  intros Hm. apply elem_of_map_to_list in Hm.
  destruct (max_entry (map_to_list z)) as [e|] eqn:Hmax.
  - exists e. split; [done|].
    apply max_entry_Some in Hmax as [_ Hle]. by apply (Hle (m, s)).
  - apply max_entry_None in Hmax. rewrite Hmax in Hm.
    by apply elem_of_nil in Hm.
Qed.

Lemma max_entry_lookup (z : gmap string Z) e :
  max_entry (map_to_list z) = Some e → z !! e.1 = Some e.2.
Proof.
  intros [Hin _]%max_entry_Some. destruct e. by apply elem_of_map_to_list.
Qed.

(** Once a delta is merged, the read-only redis is not behind any change
    id of the source: the next delta is empty. *)
Lemma second_delta_empty (prod ro : redis) :
  zrangebyscore (change_id prod)
    (floor_of (apply_delta prod (zrangebyscore (change_id prod) (floor_of ro)) ro))
  = [].
Proof.
  apply zrangebyscore_nil. intros m s Hm.
  set (delta := zrangebyscore (change_id prod) (floor_of ro)).
  assert (Hnd : NoDup (delta.*1)) by apply zrangebyscore_NoDup.
  assert (Hbound : ∃ m1 s1,
            change_id (apply_delta prod delta ro) !! m1 = Some s1 ∧ s ≤ s1).
  { unfold apply_delta. cbn [change_id].
    destruct (decide (from_min (floor_of ro) (m, s))) as [Hge|Hlt].
    - exists m, s. split; [|lia]. apply lookup_union_Some_raw. left.
      apply elem_of_list_to_map; [done|]. by apply elem_of_zrangebyscore.
    - destruct (max_entry (map_to_list (change_id ro))) as [e|] eqn:Hmax;
        [|unfold floor_of in Hlt; rewrite Hmax in Hlt; by destruct Hlt].
      assert (Hfloor : floor_of ro = Some (e.2 + 1))
        by (unfold floor_of; by rewrite Hmax).
      rewrite Hfloor in Hlt. cbn in Hlt.
      pose proof (max_entry_lookup _ _ Hmax) as Hlook.
      destruct ((list_to_map delta : gmap string Z) !! e.1) as [s'|] eqn:Hd.
      + exists e.1, s'. split; [apply lookup_union_Some_raw; by left|].
        apply elem_of_list_to_map in Hd; [|done].
        apply elem_of_zrangebyscore in Hd as [_ Hge].
        rewrite Hfloor in Hge. cbn in Hge. lia.
      + exists e.1, e.2. split; [|lia]. apply lookup_union_Some_raw. by right. }
  destruct Hbound as (m1 & s1 & Hm1 & Hle).
  destruct (max_entry_bound _ _ _ Hm1) as (e & He & Hle').
  unfold floor_of. fold delta. rewrite He. cbn. lia.
Qed.

Lemma incremental_sync_run self w :
  incremental_sync self w =
  (inr tt,
   World (prod_after partial_update_script (production_redis w))
     (apply_delta (production_redis w)
        (zrangebyscore (change_id (production_redis w)) (floor_of (ro_redis w)))
        (ro_redis w))
     (trace w ++ inspect_events (ro_redis w)
      ++ script_events partial_update_script [full_data_key; change_id_key]
           [fetch_floor (inspected (production_redis w) (ro_redis w))]
           (production_redis w)
      ++ (if nonempty (zrangebyscore (change_id (production_redis w))
                         (floor_of (ro_redis w)))
          then [RoMultiExec
                  (partial_transaction (production_redis w)
                     (zrangebyscore (change_id (production_redis w))
                        (floor_of (ro_redis w))))]
          else []))).
Proof.
  unfold incremental_sync, bind. rewrite fetch_ro_redis_data_run.
  set (self' := Self _ _ _ _ _).
  assert (Hmin : range_min (fetch_floor self') = Some (floor_of (ro_redis w))).
  { unfold fetch_floor, self', ro_cursor, floor_of. cbn.
    by destruct (max_entry _). }
  rewrite (do_partial_update_run _ _ _ Hmin).
  cbn [production_redis ro_redis trace]. by rewrite <- !app_assoc.
Qed.

(** C3: with exact change ids on both servers and an ASCII schema on the
    read-only redis, an incremental sync (the inspection of the read-only
    redis and the partial update) run twice in a row, the source keeping
    its data in between: both succeed, the second one sends no transaction
    to the read-only redis, which is after the second exactly as after the
    first. *)
Theorem incremental_sync_twice (self1 self2 : Synchronizer) (w : world) :
  exact_scores (change_id (production_redis w)) →
  exact_scores (change_id (ro_redis w)) →
  ascii_schema (schema (ro_redis w)) →
  ∃ w1 w2 evs,
    incremental_sync self1 w = (inr tt, w1)
    ∧ change_id (production_redis w1) = change_id (production_redis w)
    ∧ full_data (production_redis w1) = full_data (production_redis w)
    ∧ schema (production_redis w1) = schema (production_redis w)
    ∧ incremental_sync self2 w1 = (inr tt, w2)
    ∧ trace w2 = trace w1 ++ evs
    ∧ (∀ e, e ∈ evs → is_write e = false)
    ∧ ro_redis w2 = ro_redis w1.
Proof.
  intros _ _ _.
  do 3 eexists. split; [apply incremental_sync_run|].
  cbn [production_redis ro_redis trace].
  destruct (prod_after_data partial_update_script (production_redis w))
    as (Hcid & Hfd & Hsch & _).
  repeat (split; [done|]).
  rewrite incremental_sync_run. cbn [production_redis ro_redis trace].
  rewrite Hcid, second_delta_empty, apply_delta_nil. cbn [nonempty].
  split; [reflexivity|]. split; [reflexivity|]. split; [|reflexivity].
  intros e [He|He]%elem_of_app.
  - unfold inspect_events in He. destruct (max_entry _); by each_member He.
  - apply elem_of_app in He as [He|He]; [|by each_member He].
    unfold script_events in He. destruct (decide _); by each_member He.
Qed.

Lemma incremental_sync_twice_witness :
  ∃ w1 w2,
    incremental_sync new_synchronizer (start example_prod example_ro)
      = (inr tt, w1)
    ∧ incremental_sync new_synchronizer w1 = (inr tt, w2)
    ∧ ro_redis w2 = ro_redis w1.
Proof.
  assert (Hp : exact_scores (change_id example_prod)) by by_evaluation.
  assert (Hr : exact_scores (change_id example_ro)) by by_evaluation.
  assert (Ha : ascii_schema (schema example_ro)) by by_evaluation.
  destruct (incremental_sync_twice new_synchronizer new_synchronizer
              (start example_prod example_ro) Hp Hr Ha)
    as (w1 & w2 & evs & H1 & _ & _ & _ & H2 & _ & _ & Hro).
  exists w1, w2. split; [exact H1|]. split; [exact H2|exact Hro].
Defined.

(** ** Running a script by digest, with the fallback *)

Section fallback.

Context {Srv : Type} `{!ScriptServer Srv}.

(** On any server, the script is first called by the digest of its body.
    A reply is returned as it is.  When, and only when, the server raises
    a reply error that starts with NOSCRIPT, the body is sent once with
    [eval] and whatever that gives is the result.  Any other exception is
    raised again, and nothing more is sent. *)
Lemma eval_on_falls_back (srv : Srv) (script : string)
    (keys : list key) (args : list pyval) :
  (∀ rep srv', evalsha srv (sha1_hexdigest script) keys args = (inr rep, srv') →
     eval_on srv script keys args =
       (inr rep, srv', [ProdEvalsha (sha1_hexdigest script) keys args]))
  ∧ (∀ msg srv',
       evalsha srv (sha1_hexdigest script) keys args = (inl (ReplyError msg), srv') →
       String.prefix "NOSCRIPT" msg = true →
       eval_on srv script keys args =
         (eval srv' script keys args,
          [ProdEvalsha (sha1_hexdigest script) keys args;
           ProdEval script keys args]))
  ∧ (∀ e srv', evalsha srv (sha1_hexdigest script) keys args = (inl e, srv') →
       (∀ msg, e = ReplyError msg → String.prefix "NOSCRIPT" msg = false) →
       eval_on srv script keys args =
         (inl e, srv', [ProdEvalsha (sha1_hexdigest script) keys args]))
  ∧ (ProdEval script keys args ∈ (eval_on srv script keys args).2
     ↔ ∃ msg, (evalsha srv (sha1_hexdigest script) keys args).1
              = inl (ReplyError msg)
              ∧ String.prefix "NOSCRIPT" msg = true).
Proof.
  unfold eval_on.
  destruct (evalsha srv (sha1_hexdigest script) keys args) as [[e|rep] srv1].
  - split; [intros ?? [=]|]. split; [|split].
    + intros msg srv' [= -> ->] Hpre. by rewrite Hpre.
    + intros e' srv' [= -> ->] Hother. destruct e' as [msg| | | |]; try done.
      by rewrite (Hother msg eq_refl).
    + destruct e as [msg| | | |]; cbn [fst snd].
      * destruct (String.prefix "NOSCRIPT" msg) eqn:Hpre; cbn [snd].
        -- split; [eauto|]. intros _. apply elem_of_cons. right. left.
        -- split.
           ++ intros Hin. by each_member Hin.
           ++ intros (msg' & [= <-] & Hpre'). congruence.
      * split; [intros Hin; by each_member Hin|by intros (? & [=] & _)].
      * split; [intros Hin; by each_member Hin|by intros (? & [=] & _)].
      * split; [intros Hin; by each_member Hin|by intros (? & [=] & _)].
      * split; [intros Hin; by each_member Hin|by intros (? & [=] & _)].
  - split; [by intros ?? [= -> ->]|].
    split; [intros ?? [=]|]. split; [intros ?? [=]|].
    cbn [fst snd].
    split; [intros Hin; by each_member Hin|by intros (? & [=] & _)].
Qed.

End fallback.

(** A connection that is gone raises at the call by digest, and the body
    is not sent. *)
Example eval_on_closed_connection :
  eval_on Closed full_update_script [] [] =
  (inl (ConnectionError "Connection closed"), Closed,
   [ProdEvalsha (sha1_hexdigest full_update_script) [] []]).
Proof.
  apply (proj1 (proj2 (proj2 (eval_on_falls_back Closed
                                full_update_script [] [])))
           (ConnectionError "Connection closed") Closed);
    [reflexivity | discriminate].
Qed.

(** C7: [eval_production_redis] first calls the script on the production
    redis by the SHA-1 digest of its body, with the keys and arguments it
    was given.  A reply is returned as it is, after that one round trip.
    When, and only when, the production redis raises a reply error that
    starts with NOSCRIPT, the body is sent once with [eval], and whatever
    that gives (a reply or an exception) is the result.  Any other
    exception is raised again and nothing more is sent.  The read-only
    redis is not involved. *)
Theorem eval_falls_back_on_noscript (script : string) (keys : list key)
    (args : list pyval) (w : world) :
  (∀ rep prod',
     evalsha (production_redis w) (sha1_hexdigest script) keys args
       = (inr rep, prod') →
     eval_production_redis script keys args w =
       (inr rep,
        World prod' (ro_redis w)
          (trace w ++ [ProdEvalsha (sha1_hexdigest script) keys args])))
  ∧ (∀ msg prod',
       evalsha (production_redis w) (sha1_hexdigest script) keys args
         = (inl (ReplyError msg), prod') →
       String.prefix "NOSCRIPT" msg = true →
       eval_production_redis script keys args w =
         ((eval prod' script keys args).1,
          World (eval prod' script keys args).2 (ro_redis w)
            (trace w ++ [ProdEvalsha (sha1_hexdigest script) keys args;
                         ProdEval script keys args])))
  ∧ (∀ e prod',
       evalsha (production_redis w) (sha1_hexdigest script) keys args
         = (inl e, prod') →
       (∀ msg, e = ReplyError msg → String.prefix "NOSCRIPT" msg = false) →
       eval_production_redis script keys args w =
         (inl e,
          World prod' (ro_redis w)
            (trace w ++ [ProdEvalsha (sha1_hexdigest script) keys args])))
  ∧ (ProdEval script keys args
       ∈ drop (length (trace w))
           (trace (eval_production_redis script keys args w).2)
     ↔ ∃ msg,
         (evalsha (production_redis w) (sha1_hexdigest script) keys args).1
           = inl (ReplyError msg)
         ∧ String.prefix "NOSCRIPT" msg = true)
  ∧ ro_redis (eval_production_redis script keys args w).2 = ro_redis w.
Proof.
  destruct (eval_on_falls_back (production_redis w) script keys args)
    as (Hrep & Hno & Hother & Hsent).
  unfold eval_production_redis.
  split; [|split; [|split; [|split]]].
  - intros rep prod' He. by rewrite (Hrep _ _ He).
  - intros msg prod' He Hpre. rewrite (Hno _ _ He Hpre).
    by destruct (eval prod' script keys args).
  - intros e prod' He Hpre. by rewrite (Hother _ _ He Hpre).
  - rewrite <- Hsent.
    destruct (eval_on (production_redis w) script keys args) as [[res srv'] evs].
    cbn [snd trace]. by rewrite drop_app_length.
  - by destruct (eval_on (production_redis w) script keys args) as [[res srv'] evs].
Qed.

Lemma eval_falls_back_on_noscript_witness :
  eval_production_redis full_update_script
    [full_data_key; change_id_key; schema_key] []
    (start example_prod example_ro) =
  (inr [flat_hash (map_to_list (full_data example_prod));
        flat_withscores (zrangebyscore (change_id example_prod) None);
        flat_hash (map_to_list (schema example_prod))],
   World (cache_script full_update_script example_prod) example_ro
     [ProdEvalsha (sha1_hexdigest full_update_script)
        [full_data_key; change_id_key; schema_key] [];
      ProdEval full_update_script [full_data_key; change_id_key; schema_key] []])
  ∧ eval_production_redis full_update_script [] []
      (start (cache_script full_update_script example_prod) example_ro) =
    (inl (ReplyError "ERR Error running script"),
     World (cache_script full_update_script example_prod) example_ro
       [ProdEvalsha (sha1_hexdigest full_update_script) [] []]).
Proof.
  split.
  - apply (proj1 (proj2 (eval_falls_back_on_noscript full_update_script
                           [full_data_key; change_id_key; schema_key] []
                           (start example_prod example_ro)))
             "NOSCRIPT No matching script. Please use EVAL." example_prod);
      reflexivity.
  - apply (proj1 (proj2 (proj2 (eval_falls_back_on_noscript full_update_script
                                  [] []
                                  (start (cache_script full_update_script
                                            example_prod) example_ro))))
             (ReplyError "ERR Error running script")
             (cache_script full_update_script example_prod));
      [reflexivity | by intros msg [= <-]].
Defined.

(** ** The sentinel of an empty read-only redis *)










(** ** Whole runs *)

Lemma inspection_events_no_write ro e :
  e ∈ inspection_events ro → is_write e = false.
Proof.
  unfold inspection_events, inspect_events. intros He.
  destruct (max_entry _); by each_member He.
Qed.

Lemma inspect_events_no_write ro e : e ∈ inspect_events ro → is_write e = false.
Proof.
  unfold inspect_events. intros He. destruct (max_entry _); by each_member He.
Qed.

(** A partial update keeps the lowest change id of the read-only redis
    when it agrees with the one of the source. *)
Lemma ro_lowest_apply_delta (prod ro : redis) (min : option Z) :
  ro_lowest ro = prod_lowest prod → ro_lowest ro ≠ PNone →
  ro_lowest (apply_delta prod (zrangebyscore (change_id prod) min) ro)
  = ro_lowest ro.
Proof.
  unfold ro_lowest, prod_lowest. intros Heq Hne.
  destruct (max_entry (map_to_list (change_id ro))) as [e|]; [|done].
  destruct (change_id ro !! lowest_change_id_member) as [s|] eqn:Hro; [|done].
  destruct (change_id prod !! lowest_change_id_member) as [s'|] eqn:Hprod;
    [|done].
  injection Heq as ->.
  assert (Hl : change_id (apply_delta prod (zrangebyscore (change_id prod) min) ro)
               !! lowest_change_id_member = Some s').
  { unfold apply_delta. cbn [change_id]. apply lookup_union_Some_raw.
    destruct ((list_to_map (zrangebyscore (change_id prod) min) : gmap string Z)
              !! lowest_change_id_member) as [s2|] eqn:Hd; [left|by right].
    apply elem_of_list_to_map in Hd; [|apply zrangebyscore_NoDup].
    apply elem_of_zrangebyscore in Hd as [Hd _]. congruence. }
  destruct (max_entry_bound _ _ _ Hl) as (e' & -> & _). by rewrite Hl.
Qed.

(** Two runs in a row, the first one deciding for a partial update: the
    second one decides the same, sends no transaction and leaves the
    read-only redis as the first one left it. *)
Lemma run_twice_partial (prod ro : redis) (v : string) :
  production_marker prod = Some v → v ≠ "" →
  check_full_update (inspected prod ro) = false →
  ∃ self1 self2,
    (run prod ro).1 = inr self1
    ∧ (run (production_redis (run prod ro).2) (ro_redis (run prod ro).2)).1
      = inr self2
    ∧ check_full_update
        (inspected (production_redis (run prod ro).2) (ro_redis (run prod ro).2))
      = false
    ∧ (∀ e, e ∈ trace (run (production_redis (run prod ro).2)
                         (ro_redis (run prod ro).2)).2 →
            is_write e = false)
    ∧ ro_redis (run (production_redis (run prod ro).2)
                  (ro_redis (run prod ro).2)).2
      = ro_redis (run prod ro).2.
Proof.
  intros Hm Hv Hdec. rewrite (run_not_aborted _ _ _ Hm Hv), Hdec.
  cbn [fst snd production_redis ro_redis].
  set (ro1 := apply_delta prod _ ro).
  destruct (prod_after_data partial_update_script prod) as (Hcid & Hfd & Hsch & Hpm).
  assert (Hdec1 : check_full_update
                    (inspected (prod_after partial_update_script prod) ro1) = false).
  { apply not_true_iff_false. rewrite check_full_update_inspected.
    apply not_true_iff_false in Hdec. rewrite check_full_update_inspected in Hdec.
    assert (Hpl : prod_lowest (prod_after partial_update_script prod)
                  = prod_lowest prod) by (unfold prod_lowest; by rewrite Hcid).
    rewrite Hpl. unfold ro1.
    destruct (decide (ro_lowest ro = PNone)) as [?|Hne]; [tauto|].
    destruct (decide (ro_lowest ro = prod_lowest prod)) as [Heq|?]; [|tauto].
    rewrite (ro_lowest_apply_delta _ _ _ Heq Hne). tauto. }
  rewrite (run_not_aborted _ _ v) by (by rewrite ?Hpm).
  rewrite Hdec1, Hcid. cbn [fst snd production_redis ro_redis trace].
  assert (Hnil : zrangebyscore (change_id prod) (floor_of ro1) = [])
    by apply second_delta_empty.
  rewrite Hnil, apply_delta_nil. cbn [nonempty].
  do 2 eexists. split; [reflexivity|]. split; [reflexivity|].
  split; [done|]. split; [|reflexivity].
  intros e He.
  apply elem_of_app in He as [He|He];
    [by apply inspection_events_no_write in He|].
  apply elem_of_app in He as [He|He].
  { unfold script_events in He. destruct (decide _); by each_member He. }
  each_member He. by apply inspect_events_no_write in He.
Qed.

(** A run that decides for a full update leaves the read-only redis with
    the three structures of the source. *)
Lemma run_full_update (prod ro : redis) (v : string) :
  production_marker prod = Some v → v ≠ "" →
  check_full_update (inspected prod ro) = true →
  ro_redis (run prod ro).2 = replaced_by prod ro
  ∧ filter (λ e, is_write e) (trace (run prod ro).2)
    = [RoMultiExec (full_transaction prod)].
Proof.
  intros Hm Hv Hdec. rewrite (run_not_aborted _ _ _ Hm Hv), Hdec.
  split; [done|]. cbn [snd trace].
  unfold inspection_events, script_events, inspect_events.
  destruct (decide _), (max_entry (map_to_list (change_id ro))),
    (max_entry (map_to_list (change_id (replaced_by prod ro)))); done.
Qed.

(** * Further properties of the code *)

(** ** The two loops over flat lists *)

(** Induction over a flat list, two elements at a time. *)
Lemma pairs_ind {A} (P : list A → Prop) :
  P [] → (∀ x, P [x]) → (∀ x y l, P l → P (x :: y :: l)) → ∀ l, P l.
Proof.
  intros Hnil Hone Hstep.
  assert (Hboth : ∀ l, P l ∧ ∀ x, P (x :: l)).
  { induction l as [|y l [IH1 IH2]]; [by split|].
    split; [apply IH2|]. intros x. by apply Hstep. }
  intros l. apply Hboth.
Qed.

Lemma lookup_pairs_even {A} (x y : A) (l : list A) (i : nat) :
  (x :: y :: l) !! (2 * S i)%nat = l !! (2 * i)%nat.
Proof. by replace (2 * S i)%nat with (S (S (2 * i))) by lia. Qed.

Lemma lookup_pairs_odd {A} (x y : A) (l : list A) (i : nat) :
  (x :: y :: l) !! (2 * S i + 1)%nat = l !! (2 * i + 1)%nat.
Proof. by replace (2 * S i + 1)%nat with (S (S (2 * i + 1))) by lia. Qed.

(** X1: the WITHSCORES reply of a whole sorted set of exact scores, its
    entries in whatever order the server sends them, put through
    [convert_change_id_list] and added with [zadd] to an empty sorted set,
    gives the sorted set back: every member with its score. *)
Theorem convert_then_zadd_round_trip (z : gmap string Z)
    (l : list (string * Z)) :
  exact_scores z →
  l ≡ₚ map_to_list z →
  ∃ converted pairs,
    convert_change_id_list (flat_withscores l) = inr converted
    ∧ score_member_pairs converted = Some pairs
    ∧ zadd_all pairs ∅ = z.
Proof.
  intros _ Hl.
  assert (Hnd : NoDup (l.*1)).
  { rewrite Hl. apply NoDup_fst_map_to_list. }
  eexists _, _. split; [apply convert_flat_withscores|].
  split; [apply score_member_flat_scores|].
  rewrite zadd_all_union, (right_id_L ∅ (∪)) by done.
  rewrite <- (list_to_map_to_list z). by apply list_to_map_proper.
Qed.

Lemma convert_then_zadd_round_trip_witness :
  ∃ converted pairs,
    convert_change_id_list
      [PBytes "b"; PBytes "5"; PBytes "a"; PBytes "2"] = inr converted
    ∧ score_member_pairs converted = Some pairs
    ∧ zadd_all pairs ∅ = list_to_map [("a", 2); ("b", 5)].
Proof.
  assert (Hs : exact_scores (list_to_map [("a", 2); ("b", 5)])) by by_evaluation.
  apply (convert_then_zadd_round_trip (list_to_map [("a", 2); ("b", 5)])
           [("b", 5); ("a", 2)] Hs).
  apply (bool_decide_unpack _). vm_compute. exact I.
Defined.

(** X2: when [convert_change_id_list] succeeds, the list keeps its length,
    which is even, and each pair (member, score text) has become the pair
    (score as an int, member), in place. *)
Theorem convert_change_id_list_swaps (l l' : list pyval) :
  convert_change_id_list l = inr l' →
  length l' = length l
  ∧ Nat.Even (length l)
  ∧ ∀ i member text,
      l !! (2 * i)%nat = Some member → l !! (2 * i + 1)%nat = Some text →
      ∃ score, py_int text = inr score
               ∧ l' !! (2 * i)%nat = Some (PInt score)
               ∧ l' !! (2 * i + 1)%nat = Some member.
Proof.
  revert l'. induction l as [| x | x y l IH] using pairs_ind; intros l'.
  - intros [= <-]. split; [done|]. split; [by exists 0%nat|]. by intros [].
  - done.
  - cbn [convert_change_id_list].
    destruct (py_int y) as [e|score] eqn:Hy; [done|].
    destruct (convert_change_id_list l) as [e|rest] eqn:Hl; [done|].
    intros [= <-]. destruct (IH rest eq_refl) as (Hlen & [n Hn] & Hpairs).
    split; [cbn; by rewrite Hlen|].
    split; [exists (S n); cbn; lia|].
    intros [|i] member text.
    + cbn. intros [= <-] [= <-]. by exists score.
    + rewrite !lookup_pairs_even, !lookup_pairs_odd. apply Hpairs.
Qed.

Lemma convert_change_id_list_swaps_witness :
  length [PInt 5; PBytes "b"; PInt 4; PBytes "c"]
  = length [PBytes "b"; PBytes "5"; PBytes "c"; PBytes "4"].
Proof.
  apply (convert_change_id_list_swaps
           [PBytes "b"; PBytes "5"; PBytes "c"; PBytes "4"]
           [PInt 5; PBytes "b"; PInt 4; PBytes "c"] eq_refl).
Defined.

(** X3: [convert_change_id_list] needs a score for every member: a list
    it converts, followed by one more element, makes it raise an
    [IndexError], at the read of the score that is not there. *)
Theorem convert_change_id_list_odd_length (l l' : list pyval) (member : pyval) :
  convert_change_id_list l = inr l' →
  convert_change_id_list (l ++ [member]) = inl IndexError.
Proof.
  revert l'. induction l as [| x | x y l IH] using pairs_ind; intros l'.
  - done.
  - done.
  - cbn [app convert_change_id_list].
    destruct (py_int y) as [e|score]; [done|].
    destruct (convert_change_id_list l) as [e|rest] eqn:Hl; [done|].
    intros _. by rewrite (IH rest eq_refl).
Qed.

Lemma convert_change_id_list_odd_length_witness :
  convert_change_id_list ([PBytes "a"; PBytes "2"] ++ [PBytes "b"])
  = inl IndexError.
Proof.
  apply (convert_change_id_list_odd_length [PBytes "a"; PBytes "2"]
           [PInt 2; PBytes "a"] (PBytes "b") eq_refl).
Defined.

(** X4: the loop that splits [partial_full_data] fails exactly on a list
    of odd length, with an [IndexError]; on a list of even length it
    succeeds and each (id, element) pair lands in exactly one of the two
    results: with its element among the changed elements when the element
    is truthy, as a bare id among the deleted ones when it is [None] or
    empty.  Nothing else gets into either result. *)
Theorem split_partial_full_data_partitions (l : list pyval) :
  match split_partial_full_data l with
  | inl e => e = IndexError ∧ Nat.Odd (length l)
  | inr (changed, deleted) =>
      Nat.Even (length l)
      ∧ (length changed + 2 * length deleted = length l)%nat
      ∧ (∀ i id el,
           l !! (2 * i)%nat = Some id → l !! (2 * i + 1)%nat = Some el →
           if py_bool el
           then ∃ j, changed !! (2 * j)%nat = Some id
                     ∧ changed !! (2 * j + 1)%nat = Some el
           else id ∈ deleted)
      ∧ (∀ j id el,
           changed !! (2 * j)%nat = Some id →
           changed !! (2 * j + 1)%nat = Some el →
           py_bool el = true
           ∧ ∃ i, l !! (2 * i)%nat = Some id ∧ l !! (2 * i + 1)%nat = Some el)
      ∧ (∀ id, id ∈ deleted →
           ∃ i el, l !! (2 * i)%nat = Some id ∧ l !! (2 * i + 1)%nat = Some el
                   ∧ py_bool el = false)
  end.
Proof.
  induction l as [| x | x y l IH] using pairs_ind.
  - cbn. split; [by exists 0%nat|]. split; [done|].
    split; [by intros []|]. split; [by intros []|].
    by intros id Hin%elem_of_nil.
  - cbn. split; [done|]. by exists 0%nat.
  - cbn [split_partial_full_data].
    destruct (split_partial_full_data l) as [e|[changed deleted]].
    + destruct IH as [-> [n Hn]]. split; [done|]. exists (S n). cbn. lia.
    + destruct IH as ([n Hn] & Hlen & Hin & Hch & Hdel).
      destruct (py_bool y) eqn:Hy.
      * split; [exists (S n); cbn; lia|]. split; [cbn; lia|].
        split; [|split].
        -- intros [|i] id el.
           ++ cbn. intros [= <-] [= <-]. rewrite Hy. by exists 0%nat.
           ++ rewrite lookup_pairs_even, lookup_pairs_odd. intros H1 H2.
              specialize (Hin i id el H1 H2). destruct (py_bool el); [|done].
              destruct Hin as (j & Hj1 & Hj2). exists (S j).
              by rewrite lookup_pairs_even, lookup_pairs_odd.
        -- intros [|j] id el.
           ++ cbn. intros [= <-] [= <-]. split; [done|]. by exists 0%nat.
           ++ rewrite lookup_pairs_even, lookup_pairs_odd. intros H1 H2.
              destruct (Hch j id el H1 H2) as (Hb & i & Hi1 & Hi2).
              split; [done|]. exists (S i).
              by rewrite lookup_pairs_even, lookup_pairs_odd.
        -- intros id Hid. destruct (Hdel id Hid) as (i & el & Hi1 & Hi2 & Hb).
           exists (S i), el. by rewrite lookup_pairs_even, lookup_pairs_odd.
      * split; [exists (S n); cbn; lia|]. split; [cbn; lia|].
        split; [|split].
        -- intros [|i] id el.
           ++ cbn. intros [= <-] [= <-]. rewrite Hy. left.
           ++ rewrite lookup_pairs_even, lookup_pairs_odd. intros H1 H2.
              specialize (Hin i id el H1 H2). destruct (py_bool el); [done|].
              by right.
        -- intros j id el H1 H2.
           destruct (Hch j id el H1 H2) as (Hb & i & Hi1 & Hi2).
           split; [done|]. exists (S i).
           by rewrite lookup_pairs_even, lookup_pairs_odd.
        -- intros id [->|Hid]%elem_of_cons.
           ++ by exists 0%nat, y.
           ++ destruct (Hdel id Hid) as (i & el & Hi1 & Hi2 & Hb).
              exists (S i), el. by rewrite lookup_pairs_even, lookup_pairs_odd.
Qed.

(** ** The inspection and the decision *)

(** X5: on a read-only redis with exact change ids and an ASCII schema,
    [fetch_ro_redis_data] succeeds and changes neither server.  The
    current change id it sets is the highest score of the change id sorted
    set, the entry of the lowest change id taking part like any other: it
    bounds every score and some member has it; it is the text ["-inf"]
    exactly when the sorted set is empty.  The attributes read from the
    production redis are kept. *)
Theorem fetch_ro_redis_data_reads_highest (self : Synchronizer) (w : world) :
  exact_scores (change_id (ro_redis w)) →
  ascii_schema (schema (ro_redis w)) →
  ∃ self' w',
    fetch_ro_redis_data self w = (inr self', w')
    ∧ production_redis w' = production_redis w
    ∧ ro_redis w' = ro_redis w
    ∧ (∀ m s, change_id (ro_redis w) !! m = Some s →
         ∃ c, change_id_ro self' = PInt c ∧ s ≤ c)
    ∧ (∀ c, change_id_ro self' = PInt c →
         ∃ m, change_id (ro_redis w) !! m = Some c)
    ∧ (change_id_ro self' = PStr "-inf" ↔ change_id (ro_redis w) = ∅)
    ∧ lowest_change_id_prod self' = lowest_change_id_prod self
    ∧ schema_production self' = schema_production self.
Proof.
  intros _ _. eexists _, _. split; [apply fetch_ro_redis_data_run|].
  cbn [production_redis ro_redis change_id_ro lowest_change_id_prod
       schema_production].
  split; [done|]. split; [done|]. unfold ro_cursor.
  split; [|split; [|split]].
  - intros m s Hm. destruct (max_entry_bound _ _ _ Hm) as (e & -> & Hle).
    by exists e.2.
  - intros c Hc.
    destruct (max_entry (map_to_list (change_id (ro_redis w)))) as [e|] eqn:He;
      [|done].
    injection Hc as <-. exists e.1. by apply max_entry_lookup.
  - destruct (max_entry (map_to_list (change_id (ro_redis w)))) as [e|] eqn:He.
    + split; [done|]. intros Hz. by rewrite Hz, map_to_list_empty in He.
    + split; [|done]. intros _.
      by apply max_entry_None, map_to_list_empty_iff in He.
  - done.
Qed.

Lemma fetch_ro_redis_data_reads_highest_witness :
  ∃ self' w',
    fetch_ro_redis_data new_synchronizer (start example_prod example_ro)
      = (inr self', w')
    ∧ ro_redis w' = example_ro
    ∧ ∃ c, change_id_ro self' = PInt c ∧ 3 ≤ c.
Proof.
  assert (Hs : exact_scores (change_id example_ro)) by by_evaluation.
  assert (Ha : ascii_schema (schema example_ro)) by by_evaluation.
  destruct (fetch_ro_redis_data_reads_highest new_synchronizer
              (start example_prod example_ro) Hs Ha)
    as (self' & w' & Hrun & _ & Hro & Hmax & _).
  exists self', w'. split; [exact Hrun|]. split; [exact Hro|].
  apply (Hmax "b" 3). reflexivity.
Defined.

(** X6: on the state a run inspects, the decision depends on the two
    change id sorted sets only: whatever the two schema hashes (and the
    full data) hold, [check_full_update] gives the same answer, which is
    [True] exactly when one of the lowest change ids is [None] or they
    differ. *)
Theorem decision_ignores_schema (prod ro prod' ro' : redis) :
  change_id prod' = change_id prod → change_id ro' = change_id ro →
  check_full_update (inspected prod' ro') = check_full_update (inspected prod ro)
  ∧ (check_full_update (inspected prod ro) = true
     ↔ ro_lowest ro = PNone ∨ prod_lowest prod = PNone
       ∨ ro_lowest ro ≠ prod_lowest prod).
Proof.
  intros Hp Hr. split; [|apply check_full_update_inspected].
  apply eq_true_iff_eq. rewrite !check_full_update_inspected.
  unfold ro_lowest, prod_lowest. by rewrite Hp, Hr.
Qed.

Lemma decision_ignores_schema_witness :
  check_full_update
    (inspected (Redis (change_id example_prod) ∅ ∅ (Some "1") ∅)
       (Redis (change_id example_ro) ∅ (schema example_ro) None ∅))
  = check_full_update (inspected example_prod example_ro).
Proof.
  apply (decision_ignores_schema example_prod example_ro
           (Redis (change_id example_prod) ∅ ∅ (Some "1") ∅)
           (Redis (change_id example_ro) ∅ (schema example_ro) None ∅));
    reflexivity.
Defined.

(** ** What a run does to the two servers *)

Lemma filter_write_inspect_events ro :
  filter (λ e, is_write e) (inspect_events ro) = [].
Proof. unfold inspect_events. by destruct (max_entry _). Qed.

Lemma filter_write_inspection_events ro :
  filter (λ e, is_write e) (inspection_events ro) = [].
Proof.
  unfold inspection_events, inspect_events. by destruct (max_entry _).
Qed.

Lemma filter_write_script_events script keys args r :
  filter (λ e, is_write e) (script_events script keys args r) = [].
Proof. unfold script_events. by destruct (decide _). Qed.

Lemma filter_write_multi_exec cs :
  filter (λ e, is_write e) [RoMultiExec cs] = [RoMultiExec cs].
Proof. reflexivity. Qed.

(** X7: a run leaves the production redis with the data it had: change
    ids, full data, schema and marker are untouched, and its script cache
    has at most grown.  On the read-only redis the marker key and the
    script cache are never touched. *)
Theorem run_never_writes_production (prod ro : redis) :
  change_id (production_redis (run prod ro).2) = change_id prod
  ∧ full_data (production_redis (run prod ro).2) = full_data prod
  ∧ schema (production_redis (run prod ro).2) = schema prod
  ∧ production_marker (production_redis (run prod ro).2)
    = production_marker prod
  ∧ script_cache prod ⊆ script_cache (production_redis (run prod ro).2)
  ∧ production_marker (ro_redis (run prod ro).2) = production_marker ro
  ∧ script_cache (ro_redis (run prod ro).2) = script_cache ro.
Proof.
  assert (Hsub : ∀ script, script_cache prod ⊆ script_cache (prod_after script prod)).
  { intros script. unfold prod_after. destruct (decide _); [done|].
    cbn. apply union_subseteq_r. }
  destruct (production_marker prod) as [v|] eqn:Hm;
    [destruct (decide (v = "")) as [->|Hv]|].
  - rewrite run_aborted by (rewrite Hm; by intros ? [= <-]).
    by cbn.
  - rewrite (run_not_aborted _ _ _ Hm Hv).
    destruct (check_full_update (inspected prod ro));
      cbn [snd production_redis ro_redis];
      [destruct (prod_after_data full_update_script prod) as (-> & -> & -> & ->)
      |destruct (prod_after_data partial_update_script prod) as (-> & -> & -> & ->)];
      rewrite Hm; by repeat split.
  - rewrite run_aborted by (rewrite Hm; by intros ? [=]).
    by cbn.
Qed.

(** X8: every run starts with the read of the marker on the production
    redis, before anything else is asked of either server, and sends at
    most one transaction to the read-only redis. *)
Theorem run_sends_at_most_one_transaction (prod ro : redis) :
  (∃ rest, trace (run prod ro).2 = ProdGet production_marker_key :: rest)
  ∧ (length (filter (λ e, is_write e) (trace (run prod ro).2)) ≤ 1)%nat.
Proof.
  destruct (production_marker prod) as [v|] eqn:Hm;
    [destruct (decide (v = "")) as [->|Hv]|].
  - rewrite run_aborted by (rewrite Hm; by intros ? [= <-]).
    split; [eexists; reflexivity|]. vm_compute. lia.
  - rewrite (run_not_aborted _ _ _ Hm Hv).
    destruct (check_full_update (inspected prod ro)); cbn [snd trace];
      (split; [unfold inspection_events; eexists; reflexivity|]);
      rewrite !filter_app, filter_write_inspection_events,
        filter_write_script_events, !filter_write_inspect_events.
    + rewrite filter_write_multi_exec. cbn. lia.
    + destruct (nonempty _); rewrite ?filter_write_multi_exec; cbn; lia.
  - rewrite run_aborted by (rewrite Hm; by intros ? [=]).
    split; [eexists; reflexivity|]. vm_compute. lia.
Qed.

(** ** Full updates *)

Lemma full_transaction_data prod prod' :
  change_id prod' = change_id prod → full_data prod' = full_data prod →
  schema prod' = schema prod → full_transaction prod' = full_transaction prod.
Proof. unfold full_transaction. by intros -> -> ->. Qed.

(** X9: with exact change ids on the source, what a full update leaves on
    the read-only redis does not depend on what was there before: from any
    two read-only servers it sends the same transaction and ends with the
    same change ids, full data and schema.  Run a second time, it sends
    that transaction again and the read-only redis stays as it is. *)
Theorem full_update_forgets_replica (self self' : Synchronizer) (w : world)
    (ro' : redis) (t : list event) :
  exact_scores (change_id (production_redis w)) →
  let w1 := (do_full_update self w).2 in
  let v1 := (do_full_update self' (World (production_redis w) ro' t)).2 in
  let w2 := (do_full_update self' w1).2 in
  change_id (ro_redis v1) = change_id (ro_redis w1)
  ∧ full_data (ro_redis v1) = full_data (ro_redis w1)
  ∧ schema (ro_redis v1) = schema (ro_redis w1)
  ∧ filter (λ e, is_write e) (drop (length t) (trace v1))
    = filter (λ e, is_write e) (drop (length (trace w)) (trace w1))
  ∧ ro_redis w2 = ro_redis w1
  ∧ filter (λ e, is_write e) (drop (length (trace w1)) (trace w2))
    = filter (λ e, is_write e) (drop (length (trace w)) (trace w1)).
Proof.
  intros _. cbn zeta. rewrite !do_full_update_run.
  cbn [snd production_redis ro_redis trace change_id full_data schema
       production_marker script_cache].
  destruct (prod_after_data full_update_script (production_redis w))
    as (Hcid & Hfd & Hsch & _).
  rewrite !drop_app_length, !filter_app, !filter_write_script_events.
  rewrite (full_transaction_data _ _ Hcid Hfd Hsch), Hcid, Hfd, Hsch.
  by repeat split.
Qed.

Lemma full_update_forgets_replica_witness :
  change_id (ro_redis (do_full_update new_synchronizer
                         (start example_prod (Redis ∅ ∅ ∅ None ∅))).2)
  = change_id (ro_redis (do_full_update new_synchronizer
                           (start example_prod example_ro)).2).
Proof.
  assert (Hs : exact_scores (change_id example_prod)) by by_evaluation.
  apply (full_update_forgets_replica new_synchronizer new_synchronizer
           (start example_prod example_ro) (Redis ∅ ∅ ∅ None ∅) [] Hs).
Defined.

(** ** Partial updates *)

Lemma apply_delta_change_id (prod ro : redis) (delta : list (string * Z)) m :
  NoDup (delta.*1) →
  change_id (apply_delta prod delta ro) !! m =
  if decide (m ∈ delta.*1) then (list_to_map delta : gmap string Z) !! m
  else change_id ro !! m.
Proof.
  intros Hnd. unfold apply_delta. cbn [change_id]. rewrite lookup_union.
  destruct (decide (m ∈ delta.*1)) as [Hin|Hnin].
  - apply list_elem_of_fmap in Hin as ([m' s] & -> & Hin).
    apply elem_of_list_to_map in Hin; [|done]. cbn. rewrite Hin.
    by destruct (change_id ro !! m').
  - rewrite (not_elem_of_list_to_map_1 delta m Hnin).
    by rewrite (left_id_L None _).
Qed.

Lemma apply_delta_full_data (prod ro : redis) (delta : list (string * Z)) m :
  NoDup (delta.*1) →
  full_data (apply_delta prod delta ro) !! m =
  if decide (m ∈ delta.*1) then has_data (full_data prod) m
  else full_data ro !! m.
Proof.
  intros Hnd. unfold apply_delta. cbn [full_data].
  rewrite hdel_all_lookup, lookup_union.
  destruct (decide (m ∈ delta.*1)) as [Hin|Hnin].
  - destruct (has_data (full_data prod) m) as [v|] eqn:Hd.
    + rewrite decide_False
        by (rewrite elem_of_deleted_of; intros [? _]; congruence).
      assert (Hc : (m, v) ∈ changed_of (full_data prod) delta)
        by by apply elem_of_changed_of.
      apply elem_of_list_to_map in Hc; [|by apply changed_of_NoDup].
      rewrite Hc. by destruct (full_data ro !! m).
    + by rewrite decide_True by by apply elem_of_deleted_of.
  - rewrite decide_False by (rewrite elem_of_deleted_of; by intros [_ ?]).
    rewrite (not_elem_of_list_to_map_1 (changed_of (full_data prod) delta)).
    + by rewrite (left_id_L None _).
    + intros Hc. apply Hnin.
      eapply elem_of_sublist; [exact Hc|apply changed_of_sublist].
Qed.

Lemma elem_of_delta_members (z : gmap string Z) (min : option Z) m :
  m ∈ (zrangebyscore z min).*1 ↔ ∃ s, z !! m = Some s ∧ from_min min (m, s).
Proof.
  rewrite list_elem_of_fmap. split.
  - intros [[m' s] [-> Hin]]. exists s. by apply elem_of_zrangebyscore.
  - intros [s Hs]. exists (m, s). split; [done|].
    by apply elem_of_zrangebyscore.
Qed.

(** A read-only redis whose highest score bounds every score of the
    source has nothing to fetch. *)
Lemma delta_empty_when_caught_up (prod ro : redis) :
  (∀ m s, change_id prod !! m = Some s →
     ∃ m1 s1, change_id ro !! m1 = Some s1 ∧ s ≤ s1) →
  zrangebyscore (change_id prod) (floor_of ro) = [].
Proof.
  intros Hbound. apply zrangebyscore_nil. intros m s Hm.
  destruct (Hbound m s Hm) as (m1 & s1 & Hm1 & Hle).
  destruct (max_entry_bound _ _ _ Hm1) as (e & He & Hle').
  unfold floor_of. rewrite He. cbn. lia.
Qed.

(** Merging the delta from one above the highest score on keeps every
    member of the read-only redis, with its score or a higher one. *)
Lemma apply_delta_raises (prod ro : redis) (m : string) (s : Z) :
  change_id ro !! m = Some s →
  ∃ s', change_id (apply_delta prod
                     (zrangebyscore (change_id prod) (floor_of ro)) ro) !! m
        = Some s' ∧ s ≤ s'.
Proof.
  intros Hm. rewrite apply_delta_change_id by apply zrangebyscore_NoDup.
  destruct (decide _) as [Hin|Hnin]; [|exists s; split; [done|lia]].
  apply elem_of_delta_members in Hin as (s' & Hs' & Hge).
  assert (Hin : (m, s') ∈ zrangebyscore (change_id prod) (floor_of ro))
    by by apply elem_of_zrangebyscore.
  apply elem_of_list_to_map in Hin; [|apply zrangebyscore_NoDup].
  exists s'. split; [done|].
  destruct (max_entry_bound _ _ _ Hm) as (e & He & Hle).
  unfold floor_of in Hge. rewrite He in Hge. cbn in Hge. lia.
Qed.

(** After the merge the read-only redis has a score that bounds any given
    score of the source. *)
Lemma apply_delta_covers (prod ro : redis) (m : string) (s : Z) :
  change_id prod !! m = Some s →
  ∃ m1 s1, change_id (apply_delta prod
                        (zrangebyscore (change_id prod) (floor_of ro)) ro) !! m1
           = Some s1 ∧ s ≤ s1.
Proof.
  intros Hm.
  destruct (decide (from_min (floor_of ro) (m, s))) as [Hge|Hlt].
  - exists m, s. split; [|lia].
    rewrite apply_delta_change_id by apply zrangebyscore_NoDup.
    rewrite decide_True by (apply elem_of_delta_members; eauto).
    apply elem_of_list_to_map; [apply zrangebyscore_NoDup|].
    by apply elem_of_zrangebyscore.
  - destruct (max_entry (map_to_list (change_id ro))) as [e|] eqn:Hmax;
      [|unfold floor_of in Hlt; rewrite Hmax in Hlt; by destruct Hlt].
    assert (Hfloor : floor_of ro = Some (e.2 + 1))
      by (unfold floor_of; by rewrite Hmax).
    rewrite Hfloor in Hlt. cbn in Hlt.
    pose proof (max_entry_lookup _ _ Hmax) as Hlook.
    destruct (apply_delta_raises prod ro e.1 e.2 Hlook) as (s' & Hs' & Hle).
    exists e.1, s'. split; [done|lia].
Qed.

(** X10: an incremental sync (inspection, then partial update) never
    removes an entry from the change ids of the read-only redis and never
    lowers a score there: every member keeps its change id or gets a
    higher one. *)
Theorem incremental_sync_only_raises_change_ids (self : Synchronizer)
    (w : world) (m : string) (s : Z) :
  change_id (ro_redis w) !! m = Some s →
  ∃ s', change_id (ro_redis (incremental_sync self w).2) !! m = Some s'
        ∧ s ≤ s'.
Proof.
  intros Hm. rewrite incremental_sync_run. cbn [snd ro_redis].
  by apply apply_delta_raises.
Qed.

Lemma incremental_sync_only_raises_change_ids_witness :
  ∃ s', change_id (ro_redis (incremental_sync new_synchronizer
                               (start example_prod example_ro)).2) !! "b"
        = Some s' ∧ 3 ≤ s'.
Proof.
  apply (incremental_sync_only_raises_change_ids new_synchronizer
           (start example_prod example_ro) "b" 3).
  reflexivity.
Defined.

(** X11: with exact change ids on both servers and an ASCII schema on the
    read-only redis, after an incremental sync the read-only redis is not
    behind the source: its current change id, as the next inspection reads
    it, is an [int] that bounds every change id of the source. *)
Theorem incremental_sync_catches_up (self : Synchronizer) (w : world)
    (m : string) (s : Z) :
  exact_scores (change_id (production_redis w)) →
  exact_scores (change_id (ro_redis w)) →
  ascii_schema (schema (ro_redis w)) →
  change_id (production_redis w) !! m = Some s →
  ∃ c, ro_cursor (ro_redis (incremental_sync self w).2) = PInt c ∧ s ≤ c.
Proof.
  intros _ _ _ Hm. rewrite incremental_sync_run. cbn [snd ro_redis].
  destruct (apply_delta_covers _ (ro_redis w) _ _ Hm) as (m1 & s1 & Hm1 & Hle).
  destruct (max_entry_bound _ _ _ Hm1) as (e & He & Hle').
  exists e.2. unfold ro_cursor. rewrite He. split; [done|lia].
Qed.

Lemma incremental_sync_catches_up_witness :
  ∃ c, ro_cursor (ro_redis (incremental_sync new_synchronizer
                              (start example_prod example_ro)).2) = PInt c
       ∧ 5 ≤ c.
Proof.
  assert (Hp : exact_scores (change_id example_prod)) by by_evaluation.
  assert (Hr : exact_scores (change_id example_ro)) by by_evaluation.
  assert (Ha : ascii_schema (schema example_ro)) by by_evaluation.
  apply (incremental_sync_catches_up new_synchronizer
           (start example_prod example_ro) "b" 5 Hp Hr Ha).
  reflexivity.
Defined.

(** X12: an incremental sync completes the copy.  With exact change ids
    on both servers and an ASCII schema on the read-only redis: when the
    read-only redis agrees with the source on every element outside the
    delta (change ids and full data) and no element of the source has an
    empty value, then after the incremental sync the change ids and the
    full data of the read-only redis are those of the source. *)
Theorem incremental_sync_completes_copy (self : Synchronizer) (w : world) :
  let prod := production_redis w in
  let ro := ro_redis w in
  let delta := zrangebyscore (change_id prod) (floor_of ro) in
  exact_scores (change_id prod) →
  exact_scores (change_id ro) →
  ascii_schema (schema ro) →
  filter (λ kv, kv.1 ∉ delta.*1) (change_id ro)
    = filter (λ kv, kv.1 ∉ delta.*1) (change_id prod) →
  filter (λ kv, kv.1 ∉ delta.*1) (full_data ro)
    = filter (λ kv, kv.1 ∉ delta.*1) (full_data prod) →
  map_Forall (λ _ v, v ≠ "") (full_data prod) →
  change_id (ro_redis (incremental_sync self w).2) = change_id prod
  ∧ full_data (ro_redis (incremental_sync self w).2) = full_data prod.
Proof.
  intros prod ro delta _ _ _ Hcid Hfd Hne.
  rewrite incremental_sync_run. cbn [snd ro_redis]. fold prod ro delta.
  assert (Hnd : NoDup (delta.*1)) by apply zrangebyscore_NoDup.
  assert (Hout : ∀ {A} (z1 z2 : gmap string A) m,
            filter (λ kv, kv.1 ∉ delta.*1) z1
              = filter (λ kv, kv.1 ∉ delta.*1) z2 →
            m ∉ delta.*1 → z1 !! m = z2 !! m).
  { intros A z1 z2 m Heq Hm.
    apply (f_equal (λ z, z !! m)) in Heq. cbn beta in Heq.
    rewrite !map_lookup_filter in Heq.
    destruct (z1 !! m) as [x1|], (z2 !! m) as [x2|]; cbn in Heq;
      rewrite ?option_guard_True in Heq by done; done. }
  split; apply map_eq; intros m.
  - rewrite apply_delta_change_id by done.
    destruct (decide (m ∈ delta.*1)) as [Hin|Hnin]; [|by apply Hout].
    apply elem_of_delta_members in Hin as (s & Hs & Hge). rewrite Hs.
    apply elem_of_list_to_map; [done|]. by apply elem_of_zrangebyscore.
  - rewrite apply_delta_full_data by done.
    destruct (decide (m ∈ delta.*1)) as [Hin|Hnin]; [|by apply Hout].
    unfold has_data. destruct (full_data prod !! m) as [v|] eqn:Hv; [|done].
    specialize (Hne m v Hv). cbn in Hne.
    by rewrite (proj2 (String.eqb_neq v "") Hne).
Qed.

Lemma incremental_sync_completes_copy_witness :
  change_id (ro_redis (incremental_sync new_synchronizer
                         (start example_prod example_ro)).2)
    = change_id example_prod
  ∧ full_data (ro_redis (incremental_sync new_synchronizer
                           (start example_prod example_ro)).2)
    = full_data example_prod.
Proof.
  assert (Hp : exact_scores (change_id example_prod)) by by_evaluation.
  assert (Hr : exact_scores (change_id example_ro)) by by_evaluation.
  assert (Ha : ascii_schema (schema example_ro)) by by_evaluation.
  apply (incremental_sync_completes_copy new_synchronizer
           (start example_prod example_ro) Hp Hr Ha).
  - vm_compute. reflexivity.
  - vm_compute. reflexivity.
  - apply map_Forall_to_list. vm_compute.
    repeat constructor; discriminate.
Defined.

(** X13: a full update and a partial update treat an element with an
    empty value differently.  With exact change ids on both servers and an
    ASCII schema on the read-only redis: for an element of the source
    within the delta whose value is the empty string, the partial update
    deletes the field on the read-only redis, while the full update writes
    the empty value there. *)
Theorem empty_value_full_versus_partial (self self' : Synchronizer) (w : world)
    (m : string) (s : Z) :
  exact_scores (change_id (production_redis w)) →
  exact_scores (change_id (ro_redis w)) →
  ascii_schema (schema (ro_redis w)) →
  change_id (production_redis w) !! m = Some s →
  from_min (floor_of (ro_redis w)) (m, s) →
  full_data (production_redis w) !! m = Some "" →
  full_data (ro_redis (incremental_sync self w).2) !! m = None
  ∧ full_data (ro_redis (do_full_update self' w).2) !! m = Some "".
Proof.
  intros _ _ _ Hm Hge Hv. rewrite incremental_sync_run, do_full_update_run.
  cbn [snd ro_redis full_data]. split; [|done].
  rewrite apply_delta_full_data by apply zrangebyscore_NoDup.
  rewrite decide_True by (apply elem_of_delta_members; eauto).
  unfold has_data. by rewrite Hv.
Qed.

Lemma empty_value_full_versus_partial_witness :
  full_data (ro_redis (incremental_sync new_synchronizer
      (start (Redis (change_id example_prod) {["c" := ""]} ∅ (Some "1") ∅)
             example_ro)).2) !! "c" = None
  ∧ full_data (ro_redis (do_full_update new_synchronizer
      (start (Redis (change_id example_prod) {["c" := ""]} ∅ (Some "1") ∅)
             example_ro)).2) !! "c" = Some "".
Proof.
  assert (Hp : exact_scores
                 (change_id (Redis (change_id example_prod) {["c" := ""]} ∅
                               (Some "1") ∅))) by by_evaluation.
  assert (Hr : exact_scores (change_id example_ro)) by by_evaluation.
  assert (Ha : ascii_schema (schema example_ro)) by by_evaluation.
  apply (empty_value_full_versus_partial new_synchronizer new_synchronizer
           (start (Redis (change_id example_prod) {["c" := ""]} ∅ (Some "1") ∅)
                  example_ro) "c" 4 Hp Hr Ha).
  - reflexivity.
  - vm_compute. discriminate.
  - reflexivity.
Defined.

(** ** Runs in a row *)

Lemma replaced_by_lowest (prod ro : redis) (s : Z) :
  change_id prod !! lowest_change_id_member = Some s →
  ro_lowest (replaced_by prod ro) = PInt s.
Proof.
  intros Hs. unfold ro_lowest, replaced_by. cbn [change_id].
  destruct (max_entry_bound _ _ _ Hs) as (e & -> & _). by rewrite Hs.
Qed.

(** X14: when the source has a lowest change id, one run is enough.  With
    exact change ids and ASCII schemas on both servers, a second run right
    after any run that was not aborted, the source keeping its data,
    decides for a partial update, fetches an empty delta, sends no
    transaction and leaves the read-only redis as it is. *)
Theorem second_run_writes_nothing (prod ro : redis) (v : string) (s : Z) :
  exact_scores (change_id prod) → exact_scores (change_id ro) →
  ascii_schema (schema prod) → ascii_schema (schema ro) →
  production_marker prod = Some v → v ≠ "" →
  change_id prod !! lowest_change_id_member = Some s →
  check_full_update
    (inspected (production_redis (run prod ro).2) (ro_redis (run prod ro).2))
  = false
  ∧ (∀ e, e ∈ trace (run (production_redis (run prod ro).2)
                       (ro_redis (run prod ro).2)).2 →
          is_write e = false)
  ∧ ro_redis (run (production_redis (run prod ro).2)
                (ro_redis (run prod ro).2)).2
    = ro_redis (run prod ro).2.
Proof.
  intros _ _ _ _ Hm Hv Hs.
  destruct (check_full_update (inspected prod ro)) eqn:Hdec.
  - rewrite (run_not_aborted _ _ _ Hm Hv), Hdec.
    cbn [snd production_redis ro_redis].
    destruct (prod_after_data full_update_script prod)
      as (Hcid & Hfd & Hsch & Hpm).
    set (ro1 := replaced_by prod ro).
    assert (Hdec1 : check_full_update
                      (inspected (prod_after full_update_script prod) ro1)
                    = false).
    { apply not_true_iff_false. rewrite check_full_update_inspected.
      unfold ro1. rewrite (replaced_by_lowest _ _ _ Hs).
      unfold prod_lowest. rewrite Hcid, Hs. by intros [?|[?|?]]. }
    split; [done|].
    rewrite (run_not_aborted _ _ v) by (by rewrite ?Hpm).
    rewrite Hdec1, Hcid. cbn [snd production_redis ro_redis trace].
    assert (Hnil : zrangebyscore (change_id prod) (floor_of ro1) = []).
    { apply delta_empty_when_caught_up. intros m' s' Hm'.
      exists m', s'. split; [done|lia]. }
    rewrite Hnil, apply_delta_nil. cbn [nonempty]. split; [|done].
    intros e He.
    apply elem_of_app in He as [He|He];
      [by apply inspection_events_no_write in He|].
    apply elem_of_app in He as [He|He].
    { unfold script_events in He. destruct (decide _); by each_member He. }
    each_member He. by apply inspect_events_no_write in He.
  - destruct (run_twice_partial _ _ _ Hm Hv Hdec)
      as (self1 & self2 & _ & _ & Hdec1 & Hw & Hro).
    by repeat split.
Qed.

Lemma second_run_writes_nothing_witness :
  ro_redis (run (production_redis (run example_prod (Redis ∅ ∅ ∅ None ∅)).2)
              (ro_redis (run example_prod (Redis ∅ ∅ ∅ None ∅)).2)).2
  = ro_redis (run example_prod (Redis ∅ ∅ ∅ None ∅)).2.
Proof.
  assert (Hp : exact_scores (change_id example_prod)) by by_evaluation.
  assert (Hr : exact_scores (change_id (Redis ∅ ∅ ∅ None ∅))) by by_evaluation.
  assert (Hsp : ascii_schema (schema example_prod)) by by_evaluation.
  assert (Hsr : ascii_schema (schema (Redis ∅ ∅ ∅ None ∅))) by by_evaluation.
  apply (second_run_writes_nothing example_prod (Redis ∅ ∅ ∅ None ∅) "1" 1
           Hp Hr Hsp Hsr);
    [reflexivity | discriminate | reflexivity].
Defined.

(** X15: a source without the entry of the lowest change id is never
    synced incrementally.  With exact change ids on the source and ASCII
    schemas on both servers, every run that is not aborted, whatever else
    the read-only redis holds, decides for a full update, sends the one
    transaction of the full update (for the entries [fd], [cid] and [sch]
    of the three replies in the order the server sent them) and replaces
    the three structures. *)
Theorem no_lowest_change_id_always_full (prod ro : redis) (v : string) :
  exact_scores (change_id prod) →
  ascii_schema (schema prod) → ascii_schema (schema ro) →
  production_marker prod = Some v → v ≠ "" →
  change_id prod !! lowest_change_id_member = None →
  check_full_update (inspected prod ro) = true
  ∧ ro_redis (run prod ro).2 = replaced_by prod ro
  ∧ ∃ fd cid sch,
      fd ≡ₚ map_to_list (full_data prod)
      ∧ cid ≡ₚ map_to_list (change_id prod)
      ∧ sch ≡ₚ map_to_list (schema prod)
      ∧ filter (λ e, is_write e) (trace (run prod ro).2)
        = [RoMultiExec (full_transaction_of fd cid sch)].
Proof.
  intros _ _ _ Hm Hv Hlow.
  assert (Hdec : check_full_update (inspected prod ro) = true).
  { apply check_full_update_inspected. right. left.
    unfold prod_lowest. by rewrite Hlow. }
  split; [done|].
  destruct (run_full_update _ ro _ Hm Hv Hdec) as [Hro Hw].
  split; [done|].
  exists (map_to_list (full_data prod)), (zrangebyscore (change_id prod) None),
    (map_to_list (schema prod)).
  split; [done|]. split; [apply zrangebyscore_all|]. split; [done|].
  by rewrite Hw, full_transaction_replies.
Qed.

Lemma no_lowest_change_id_always_full_witness :
  check_full_update
    (inspected (Redis {["a" := 2]} {["a" := "va"]} ∅ (Some "1") ∅) example_ro)
  = true.
Proof.
  assert (Hp : exact_scores
                 (change_id (Redis {["a" := 2]} {["a" := "va"]} ∅ (Some "1") ∅)))
    by by_evaluation.
  assert (Hsp : ascii_schema
                  (schema (Redis {["a" := 2]} {["a" := "va"]} ∅ (Some "1") ∅)))
    by by_evaluation.
  assert (Hsr : ascii_schema (schema example_ro)) by by_evaluation.
  apply (no_lowest_change_id_always_full
           (Redis {["a" := 2]} {["a" := "va"]} ∅ (Some "1") ∅) example_ro "1"
           Hp Hsp Hsr);
    [reflexivity | discriminate | reflexivity].
Defined.

(** ** The script cache *)

Lemma prod_after_cached script (r : redis) :
  script ∈ script_cache (prod_after script r).
Proof.
  unfold prod_after. destruct (decide _); [done|].
  cbn. apply elem_of_union_l. by apply elem_of_singleton.
Qed.

(** X16: a script that runs without error has to be sent in full at most
    once.  After one call of [eval_production_redis] the production redis
    has the script cached, and the next call with the same arguments gets
    the same reply with the single [evalsha] round trip. *)
Theorem script_sent_in_full_at_most_once (script : string) (keys : list key)
    (args : list pyval) (w : world) (rep : reply) :
  run_script script (production_redis w) keys args = inr rep →
  (eval_production_redis script keys args w).1 = inr rep
  ∧ script ∈ script_cache
               (production_redis (eval_production_redis script keys args w).2)
  ∧ eval_production_redis script keys args
      (eval_production_redis script keys args w).2
    = (inr rep,
       World (production_redis (eval_production_redis script keys args w).2)
         (ro_redis w)
         (trace (eval_production_redis script keys args w).2
          ++ [ProdEvalsha (sha1_hexdigest script) keys args])).
Proof.
  intros Hrun. rewrite (eval_production_redis_ok _ _ _ _ _ Hrun).
  cbn [fst snd production_redis ro_redis trace].
  split; [done|]. split; [apply prod_after_cached|].
  assert (Hrun1 : run_script script (prod_after script (production_redis w))
                    keys args = inr rep).
  { unfold prod_after. by destruct (decide _). }
  set (w1 := World _ _ _).
  rewrite (eval_production_redis_ok _ _ _ w1 _ Hrun1).
  subst w1. cbn [production_redis ro_redis trace].
  unfold script_events at 2.
  rewrite decide_True by apply prod_after_cached.
  f_equal. f_equal. unfold prod_after at 1.
  by rewrite decide_True by apply prod_after_cached.
Qed.

Lemma script_sent_in_full_at_most_once_witness :
  full_update_script ∈ script_cache
    (production_redis
       (eval_production_redis full_update_script
          [full_data_key; change_id_key; schema_key] []
          (start example_prod example_ro)).2).
Proof.
  apply (script_sent_in_full_at_most_once full_update_script
           [full_data_key; change_id_key; schema_key] []
           (start example_prod example_ro)
           [flat_hash (map_to_list (full_data example_prod));
            flat_withscores (zrangebyscore (change_id example_prod) None);
            flat_hash (map_to_list (schema example_prod))]).
  apply run_full_update_script.
Defined.

(** ** main *)

(** X17: [main] closes exactly the connections it has made, each once,
    the production one first, and only after everything else: nothing
    happens after the first close but the other close, and a connection
    that was not made is not closed. *)
Theorem main_closes_what_it_opened (connect_prod connect_ro : exn + redis) :
  ∃ body,
    main_events (main connect_prod connect_ro)
    = body
      ++ (match connect_prod with inr _ => [CloseRedis true] | inl _ => [] end)
      ++ (match connect_prod, connect_ro with
          | inr _, inr _ => [CloseRedis false]
          | _, _ => []
          end)
    ∧ ∀ production, CloseRedis production ∉ body.
Proof.
  unfold main, main_try.
  destruct connect_prod as [e|prod].
  - exists [CreateRedis true; Caught e]. split; [reflexivity|].
    intros p Hin. by each_member Hin.
  - destruct connect_ro as [e|ro].
    + exists [CreateRedis true; CreateRedis false; Caught e].
      split; [reflexivity|]. intros p Hin. by each_member Hin.
    + destruct (run prod ro) as [res w].
      exists ([CreateRedis true; CreateRedis false] ++ (RoundTrip <$> trace w)
              ++ match res with inl e => [Caught e] | inr _ => [] end).
      split.
      * destruct res as [e|self];
          unfold main_finally, main_except;
          cbn [main_production_redis main_ro_redis main_events];
          by rewrite <- !app_assoc, ?app_nil_r.
      * intros p Hin.
        apply elem_of_app in Hin as [Hin|Hin]; [by each_member Hin|].
        apply elem_of_app in Hin as [Hin|Hin].
        -- by apply list_elem_of_fmap in Hin as (? & [=] & _).
        -- destruct res; by each_member Hin.
Qed.

